(** * RosterApp: the interval engine of the roster grid

    A shallow embedding of [RosterApp-V2.tsx]: the time helpers
    ([toRow], [rowToTime]), the task store held in the component state,
    and the three operations that rewrite it ([resolveOverlaps],
    [mergeAdjacent], [addTaskAt]) together with the keyboard deletion
    handler.

    Row indices are JavaScript numbers that only ever hold integers here;
    they are modelled as [Z].  A JavaScript number is a double: comparisons
    are exact on all of them, but [n + 1], [++n] and the arithmetic of the
    time helpers are exact only on a range of integers ([safeInteger],
    [exactRow] below).  The model computes in [Z] and agrees with the
    source on that range; every statement that depends on this arithmetic
    carries the range as a hypothesis.  Task and employee ids and labels are
    strings.  The task store is the array kept by [useState<Task[]>]; it is
    a [list Task] whose order is the array order.  Every [setTasks] call of
    the source passes an updater function [prev => next]; React applies
    queued updaters in the order they were queued, so each updater is a
    function [list Task -> list Task] and an event handler is their
    composition. *)

From Stdlib Require Import ZArith List String Ascii Bool Lia.
From Stdlib Require Import Decimal DecimalString.
From Stdlib Require DecimalPos DecimalZ.
From Stdlib Require Import Permutation Sorted.
Import ListNotations.

Local Open Scope string_scope.
Local Open Scope Z_scope.
Local Open Scope list_scope.

(* ================================================================= *)
(** ** Types *)

Inductive TaskType : Type :=
| front
| gallery
| break
| prep
| tour
| tidy
| school_pre
| school_program.

Definition TaskType_eqb (a b : TaskType) : bool :=
  match a, b with
  | front, front | gallery, gallery | break, break | prep, prep
  | tour, tour | tidy, tidy | school_pre, school_pre
  | school_program, school_program => true
  | _, _ => false
  end.

(** [end] is a keyword of Rocq, so the fields carry a [task_] prefix. *)
Record Task : Type := mkTask {
  task_id : string;
  task_empId : string;
  task_type : TaskType;
  task_label : string;
  task_start : Z;   (* row index, inclusive *)
  task_end : Z      (* row index, exclusive *)
}.

Record Employee : Type := mkEmployee {
  emp_id : string;
  emp_name : string;
  shiftStart : Z;
  shiftEnd : Z
}.

(** Object spread with one overridden field: [{...t, end: e}] and
    [{...t, start: s}]. *)
Definition with_end (t : Task) (e : Z) : Task :=
  mkTask (task_id t) (task_empId t) (task_type t) (task_label t)
         (task_start t) e.

Definition with_start (t : Task) (s : Z) : Task :=
  mkTask (task_id t) (task_empId t) (task_type t) (task_label t)
         s (task_end t).

(* ================================================================= *)
(** ** Time helpers *)

Definition DAY_START_MIN : Z := 9 * 60 + 30.
Definition TOTAL_ROWS : Z := 26.

(** [n.toString()] for an integer-valued number: decimal digits, with a
    leading minus sign for negative values. *)
Definition numToString (n : Z) : string :=
  NilZero.string_of_int (Z.to_int n).

(** [Number(s)] on the strings the time helpers meet.  The empty string
    is 0 and an optionally negated run of decimal digits is its value
    (leading zeros allowed).  Every other string gives [None], which
    stands for [NaN]; the other numeric literal forms of JavaScript
    (white space, a plus sign, fractions, exponents, hexadecimal) are not
    modelled and also give [None]. *)
Definition Number (s : string) : option Z :=
  match s with
  | EmptyString => Some 0
  | _ => option_map Z.of_int (NilZero.int_of_string s)
  end.

(** [s.padStart(n, "0")]. *)
Fixpoint zeros (n : nat) : string :=
  match n with
  | O => EmptyString
  | S k => String "0"%char (zeros k)
  end.

Definition padStart0 (n : nat) (s : string) : string :=
  (zeros (n - String.length s) ++ s)%string.

(** [s.split(":")]: the pieces between the colons, at least one piece. *)
Fixpoint splitColon (s : string) : list string :=
  match s with
  | EmptyString => [EmptyString]
  | String c rest =>
      if Ascii.eqb c ":"%char then EmptyString :: splitColon rest
      else match splitColon rest with
           | [] => [String c EmptyString]
           | p :: ps => String c p :: ps
           end
  end.

(** Array destructuring [[h, m] = parts.map(Number)]: a missing element
    is [undefined], which is [NaN] in the arithmetic that follows. *)
Definition nthNumber (parts : list string) (i : nat) : option Z :=
  match nth_error parts i with
  | Some p => Number p
  | None => None
  end.

(** [toRow]: [None] is [NaN], which [Math.floor], [Math.min] and
    [Math.max] all propagate. *)
Definition toRow (hhmm : string) : option Z :=
  let parts := splitColon hhmm in
  match nthNumber parts 0, nthNumber parts 1 with
  | Some h, Some m =>
      let mins := h * 60 + m in
      Some (Z.max 0 (Z.min TOTAL_ROWS ((mins - DAY_START_MIN) / 15)))
  | _, _ => None
  end.

(** [rowToTime]: [%] is the truncating remainder of JavaScript.  The
    arithmetic is that of [Z]; the source computes in doubles, which is the
    same on the rows of [exactRow] and rounds or overflows far outside. *)
Definition rowToTime (row : Z) : string :=
  let mins := DAY_START_MIN + row * 15 in
  let h := padStart0 2 (numToString (mins / 60)) in
  let m := padStart0 2 (numToString (Z.rem mins 60)) in
  (h ++ ":" ++ m)%string.

Definition rowRangeLabel (start end_ : Z) : string :=
  (rowToTime start ++ "-" ++ rowToTime end_)%string.

(* ================================================================= *)
(** ** Styling helpers *)

Definition TYPE_LABEL (t : TaskType) : string :=
  match t with
  | front => "Front Desk"
  | gallery => "Gallery"
  | break => "Break"
  | prep => "Prep"
  | tour => "Public Tour"
  | tidy => "Finish"
  | school_pre => "School Pre"
  | school_program => "School Program"
  end.

Definition isTourLike (t : TaskType) : bool :=
  TaskType_eqb t tour || TaskType_eqb t school_program.

(* ================================================================= *)
(** ** Component state *)

(** The module-level counter [seq] and the state cells of the component
    that the engine reads or writes. *)
Record AppState : Type := mkState {
  seq : Z;
  employees : list Employee;
  tasks : list Task;
  selectedId : option string
}.

Definition setTasks (f : list Task -> list Task) (st : AppState) : AppState :=
  mkState (seq st) (employees st) (f (tasks st)) (selectedId st).

Definition setSelectedId (s : option string) (st : AppState) : AppState :=
  mkState (seq st) (employees st) (tasks st) s.

(** [uid]: pre-increment the counter and format it.  The increment is
    that of [Z]; [++seq] on a double is the same as long as the counter is
    a [safeInteger] and stops growing at [2^53]. *)
Definition uid (st : AppState) : string * AppState :=
  let n := seq st + 1 in
  (("t_" ++ numToString n)%string,
   mkState n (employees st) (tasks st) (selectedId st)).

(* ================================================================= *)
(** ** Keyboard deletion *)

(** [if (selectedId)]: [null] and the empty string are falsy. *)
Definition truthy (s : option string) : option string :=
  match s with
  | Some EmptyString => None
  | other => other
  end.

(** The [keydown] handler [onKey], on the [key] of the event. *)
Definition onKey (key : string) (st : AppState) : AppState :=
  let st1 :=
    if String.eqb key "Delete" || String.eqb key "Backspace" then
      match truthy (selectedId st) with
      | Some sel =>
          setSelectedId None
            (setTasks (filter (fun t => negb (String.eqb (task_id t) sel))) st)
      | None => st
      end
    else st in
  if String.eqb key "Escape" then setSelectedId None st1 else st1.

(* ================================================================= *)
(** ** Merging adjacent tasks *)

(** [keep[keep.length - 1]]: [undefined] on the empty array. *)
Fixpoint lastOpt {A : Type} (l : list A) : option A :=
  match l with
  | [] => None
  | [x] => Some x
  | _ :: r => lastOpt r
  end.

(** [arr.sort((a, b) => a.start - b.start)].  [Array.prototype.sort] is
    stable, and a stable sort has one possible result; insertion from the
    right, placing an element before the first one that does not start
    earlier, computes it. *)
Fixpoint insertByStart (t : Task) (l : list Task) : list Task :=
  match l with
  | [] => [t]
  | x :: r =>
      if task_start t <=? task_start x then t :: x :: r
      else x :: insertByStart t r
  end.

Fixpoint sortByStart (l : list Task) : list Task :=
  match l with
  | [] => []
  | t :: r => insertByStart t (sortByStart r)
  end.

(** The condition [sameKind] of the loop, once [last] is defined. *)
Definition sameKind (last t : Task) : bool :=
  TaskType_eqb (task_type last) (task_type t)
  && String.eqb (task_label last) (task_label t)
  && (task_end last =? task_start t)
  && negb (isTourLike (task_type t))
  && negb (isTourLike (task_type last)).

(** One turn of [for (const t of arr)].  The elements of [keep] are the
    copies pushed by the loop, so the assignment [last.end = t.end]
    changes the last element of [keep] and nothing else. *)
Definition mergeStep (keep : list Task) (t : Task) : list Task :=
  match lastOpt keep with
  | Some last =>
      if sameKind last t
      then removelast keep ++ [with_end last (task_end t)]
      else keep ++ [t]
  | None => keep ++ [t]
  end.

Definition mergeLoop (arr : list Task) : list Task :=
  fold_left mergeStep arr [].

Definition ofEmp (empId : string) (t : Task) : bool :=
  String.eqb (task_empId t) empId.

Definition notOfEmp (empId : string) (t : Task) : bool :=
  negb (String.eqb (task_empId t) empId).

(** The updater passed to [setTasks] by [mergeAdjacent]. *)
Definition mergeAdjacent (empId : string) (prev : list Task) : list Task :=
  let arr := sortByStart (filter (ofEmp empId) prev) in
  let keep := mergeLoop arr in
  let others := filter (notOfEmp empId) prev in
  others ++ keep.

(* ================================================================= *)
(** ** Resolving overlaps *)

(** [t.id == exceptId], where [exceptId] may be [undefined]. *)
Definition isExcept (exceptId : option string) (t : Task) : bool :=
  match exceptId with
  | Some x => String.eqb (task_id t) x
  | None => false
  end.

(** What one turn of the loop appends to [next].  The tests are the
    source's, in the source's order; a turn in which none applies appends
    nothing. *)
Definition resolveTask (empId : string) (start end_ : Z)
    (exceptId : option string) (t : Task) : list Task :=
  if notOfEmp empId t || isExcept exceptId t then [t]
  else if (task_end t <=? start) || (task_start t >=? end_) then [t]
  else if (task_start t >=? start) && (task_end t <=? end_) then []
  else if (task_start t <? start) && (task_end t <=? end_) then
    [with_end t start]
  else if (task_start t >=? start) && (task_end t >? end_) then
    [with_start t end_]
  else if (task_start t <? start) && (task_end t >? end_) then
    [with_end t start; with_start t end_]
  else [].

(** The updater passed to [setTasks] by [resolveOverlaps]. *)
Definition resolveOverlaps (empId : string) (start end_ : Z)
    (exceptId : option string) (prev : list Task) : list Task :=
  fold_left (fun next t => next ++ resolveTask empId start end_ exceptId t)
            prev [].

(* ================================================================= *)
(** ** Adding a task *)

(** [row + 1] is the addition of [Z]; on a double it is the same when
    [row] is a [safeInteger], and rounds back to [row] from [2^53] on. *)
Definition addTaskAt (empId : string) (row : Z) (type : TaskType)
    (st : AppState) : AppState :=
  let label := TYPE_LABEL type in
  let (newId, st1) := uid st in
  let newTask := mkTask newId empId type label row (row + 1) in
  let st2 := setTasks (resolveOverlaps empId row (row + 1) None) st1 in
  let st3 := setTasks (fun prev => prev ++ [newTask]) st2 in
  let st4 :=
    if negb (isTourLike type) then setTasks (mergeAdjacent empId) st3
    else st3 in
  setSelectedId (Some newId) st4.

(** A run of the picker: one [addTaskAt] per entry, in order. *)
Definition Placement : Type := (string * Z * TaskType)%type.

Definition place (st : AppState) (p : Placement) : AppState :=
  let '(empId, row, type) := p in addTaskAt empId row type st.

Definition placeAll (ps : list Placement) (st : AppState) : AppState :=
  fold_left place ps st.

(** The initial state of the component.  The shift bounds are the values
    of [toRow "09:30"], [toRow "09:45"], [toRow "10:00"] and
    [toRow "16:00"] (see [toRow_shift_starts]). *)
Definition initialState : AppState :=
  let st0 := mkState 0 [] [] None in
  let (id1, st1) := uid st0 in
  let (id2, st2) := uid st1 in
  mkState (seq st2)
    [ mkEmployee "e_john" "John" 0 26;
      mkEmployee "e_robert" "Robert" 1 26;
      mkEmployee "e_mary" "Mary" 2 26 ]
    [ mkTask id1 "e_john" front (TYPE_LABEL front) 0 1;
      mkTask id2 "e_john" gallery (TYPE_LABEL gallery) 1 3 ]
    None.

(* ================================================================= *)
(** ** Predicates of the data model *)

(** A task of the data model occupies at least one row. *)
Definition validTask (t : Task) : Prop := task_start t < task_end t.

(** Two half-open ranges share no row. *)
Definition disjoint (a b : Task) : Prop :=
  task_end a <= task_start b \/ task_end b <= task_start a.

(** Any two tasks at different positions of the store that belong to the
    same employee are disjoint. *)
Definition noOverlap (l : list Task) : Prop :=
  forall i j a b,
    i <> j -> nth_error l i = Some a -> nth_error l j = Some b ->
    task_empId a = task_empId b -> disjoint a b.

(** Task [t] belongs to [empId], has kind [k] and label [lbl], and its
    range holds row [r]. *)
Definition coveredBy (t : Task) (empId : string) (k : TaskType)
    (lbl : string) (r : Z) : Prop :=
  task_empId t = empId /\ task_type t = k /\ task_label t = lbl /\
  task_start t <= r < task_end t.

(** Some task of [empId] with kind [k] and label [lbl] covers row [r]. *)
Definition covers (l : list Task) (empId : string) (k : TaskType)
    (lbl : string) (r : Z) : Prop :=
  exists t, In t l /\ coveredBy t empId k lbl r.

(** The relation that [noOverlap] asks of every pair. *)
Definition apart (a b : Task) : Prop :=
  task_empId a = task_empId b -> disjoint a b.

(** A store of the data model: every task occupies a row and no employee
    has two tasks on one row. *)
Definition goodStore (l : list Task) : Prop :=
  Forall validTask l /\ ForallOrdPairs apart l.

(** [u] is a piece of [t]: same owner, kind and label, range inside. *)
Definition pieceOf (u t : Task) : Prop :=
  task_empId u = task_empId t /\
  task_start t <= task_start u /\ task_end u <= task_end t.

(** The loop of [mergeAdjacent] seen from its last kept element [cur]:
    the tasks still to come either extend [cur] or close it and open the
    next one.  [mergeLoop_cons] shows that the loop computes this. *)
Fixpoint mergeFrom (cur : Task) (arr : list Task) : list Task :=
  match arr with
  | [] => [cur]
  | t :: r =>
      if sameKind cur t then mergeFrom (with_end cur (task_end t)) r
      else cur :: mergeFrom t r
  end.

Definition leStart (a b : Task) : Prop := task_start a <= task_start b.

Definition tourLikeTask (t : Task) : bool := isTourLike (task_type t).

(** Boolean forms of the data-model predicates, for concrete stores. *)
Definition validTaskb (t : Task) : bool := task_start t <? task_end t.

Definition disjointb (a b : Task) : bool :=
  (task_end a <=? task_start b) || (task_end b <=? task_start a).

Definition clashFree (a : Task) (l : list Task) : bool :=
  forallb (fun b => negb (String.eqb (task_empId a) (task_empId b))
                    || disjointb a b) l.

Fixpoint noOverlapb (l : list Task) : bool :=
  match l with
  | [] => true
  | a :: r => clashFree a r && noOverlapb r
  end.

(** *** The range of exact arithmetic

    [Number.MAX_SAFE_INTEGER], [2^53 - 1]: every integer up to it in
    absolute value is a double, and so is its successor. *)
Definition MAX_SAFE_INTEGER : Z := 9007199254740991.

Definition safeInteger (n : Z) : Prop :=
  - MAX_SAFE_INTEGER <= n <= MAX_SAFE_INTEGER.

(** The rows on which [rowToTime] and [toRow] compute without rounding:
    up to [2^48] in absolute value the minute counts stay below [2^53] and
    the quotients by 60 and 15 are floored as in [Z]. *)
Definition exactRow (r : Z) : Prop :=
  - 281474976710656 <= r <= 281474976710656.

(** The row of a placement. *)
Definition placementRow (p : Placement) : Z := snd (fst p).

(** The merge condition in the words of the contract: same kind, same
    label, contiguous, and neither task tour-like. *)
Definition mergeable (last t : Task) : Prop :=
  task_type last = task_type t /\
  task_label last = task_label t /\
  task_end last = task_start t /\
  isTourLike (task_type t) = false /\
  isTourLike (task_type last) = false.

(** The task built by [addTaskAt] in state [st]. *)
Definition newTaskAt (empId : string) (row : Z) (type : TaskType)
    (st : AppState) : Task :=
  mkTask (fst (uid st)) empId type (TYPE_LABEL type) row (row + 1).

(** No two neighbours of the list can be merged. *)
Definition settled : list Task -> Prop :=
  Sorted (fun a b => sameKind a b = false).

(** *** Tasks per employee

    The object [map] built by [byEmp] is modelled by its own properties in
    the order they were created, which is the order in which [for ... in]
    visits keys that are not array indices.  [getKey] reads [map[k]] and
    [updKey] writes it, creating the property when it is missing. *)
Definition Buckets : Type := list (string * list Task).

Fixpoint getKey (k : string) (m : Buckets) : option (list Task) :=
  match m with
  | [] => None
  | (k', v) :: r => if String.eqb k' k then Some v else getKey k r
  end.

Fixpoint updKey (k : string) (f : option (list Task) -> list Task)
    (m : Buckets) : Buckets :=
  match m with
  | [] => [(k, f None)]
  | (k', v) :: r =>
      if String.eqb k' k then (k', f (Some v)) :: r
      else (k', v) :: updKey k f r
  end.

(** The names an object literal inherits from [Object.prototype].  On
    these [map[k]] is not [undefined] before [k] is written, and writing
    [__proto__] creates no property; employee ids with such a name are
    outside the model. *)
Definition inheritedNames : list string :=
  [ "__proto__"; "constructor"; "hasOwnProperty"; "isPrototypeOf";
    "propertyIsEnumerable"; "toLocaleString"; "toString"; "valueOf";
    "__defineGetter__"; "__defineSetter__"; "__lookupGetter__";
    "__lookupSetter__" ].

Definition plainKey (k : string) : bool :=
  negb (existsb (String.eqb k) inheritedNames).

(** [(map[t.empId] ||= []).push(t)]: an array is never falsy, so the
    array is created only when the property is missing. *)
Definition pushTask (t : Task) (o : option (list Task)) : list Task :=
  match o with
  | Some l => l ++ [t]
  | None => [t]
  end.

(** The memoised [byEmp]: an empty array per employee of the roster, each
    task pushed on the array of its [empId], every array sorted by start.
    [None] stands for a roster or store with an id outside the model. *)
Definition byEmp (emps : list Employee) (ts : list Task) : option Buckets :=
  if forallb plainKey (map emp_id emps ++ map task_empId ts) then
    let m1 := fold_left (fun m e => updKey (emp_id e) (fun _ => []) m) emps [] in
    let m2 := fold_left (fun m t => updKey (task_empId t) (pushTask t) m) ts m1 in
    Some (map (fun kv => (fst kv, sortByStart (snd kv))) m2)
  else None.

(** The part of the loop body of [resolveOverlaps] that looks at the
    range only: what becomes of a task that is examined. *)
Definition cutTask (start end_ : Z) (t : Task) : list Task :=
  if (task_end t <=? start) || (task_start t >=? end_) then [t]
  else if (task_start t >=? start) && (task_end t <=? end_) then []
  else if (task_start t <? start) && (task_end t <=? end_) then
    [with_end t start]
  else if (task_start t >=? start) && (task_end t >? end_) then
    [with_start t end_]
  else if (task_start t <? start) && (task_end t >? end_) then
    [with_end t start; with_start t end_]
  else [].

(** The id that [uid] makes of the counter value [n]. *)
Definition idOf (n : Z) : string := ("t_" ++ numToString n)%string.

(** Every id of the store came out of [uid]: it is the id of a counter
    value already used. *)
Definition issued (st : AppState) : Prop :=
  forall t, In t (tasks st) ->
    exists n, n <= seq st /\ task_id t = idOf n.

(** [k] leading zero digits before [d]. *)
Fixpoint lead0 (k : nat) (d : uint) : uint :=
  match k with
  | O => d
  | S k' => D0 (lead0 k' d)
  end.

(** Whether a string holds a colon. *)
Fixpoint hasColon (s : string) : bool :=
  match s with
  | EmptyString => false
  | String c r => Ascii.eqb c ":"%char || hasColon r
  end.

(** What [toRow] does with the minutes since midnight. *)
Definition rowOfMinutes (mins : Z) : Z :=
  Z.max 0 (Z.min TOTAL_ROWS ((mins - DAY_START_MIN) / 15)).

(** The row indices from 0 to [TOTAL_ROWS], both included. *)
Definition validRows : list Z := map Z.of_nat (List.seq 0 27).

(** The store overlaps the range: the negation of the loop's
    "no overlap" test. *)
Definition overlapsRange (t : Task) (start end_ : Z) : Prop :=
  start < task_end t /\ task_start t < end_.

(* ================================================================= *)
(** ** Time conversion *)

Section TimeModel.

Lemma validRows_complete (r : Z) :
  0 <= r <= TOTAL_ROWS -> In r validRows.
Proof.
  unfold TOTAL_ROWS, validRows. intros Hr.
  apply in_map_iff. exists (Z.to_nat r). split.
  - lia.
  - apply in_seq. lia.
Qed.

Lemma roundtrip_on_validRows :
  forallb (fun r => match toRow (rowToTime r) with
                    | Some r' => r' =? r
                    | None => false
                    end) validRows = true.
Proof. vm_compute. reflexivity. Qed.

Example toRow_shift_starts :
  toRow "09:30" = Some 0 /\ toRow "09:45" = Some 1 /\
  toRow "10:00" = Some 2 /\ toRow "16:00" = Some 26.
Proof. repeat split; vm_compute; reflexivity. Qed.

Example toRow_clamps :
  toRow "08:00" = Some 0 /\ toRow "23:59" = Some TOTAL_ROWS.
Proof. split; vm_compute; reflexivity. Qed.

Example rowToTime_samples :
  rowToTime 0 = "09:30" /\ rowToTime 2 = "10:00" /\ rowToTime 26 = "16:00".
Proof. repeat split; vm_compute; reflexivity. Qed.

(** C7.  For every row index [r] with [0 <= r <= TOTAL_ROWS], turning it
    into a wall-clock string and back gives [r] again:
    [toRow (rowToTime r)] is the number [r] (and not [NaN]). *)
Theorem toRow_rowToTime (r : Z) :
  0 <= r <= TOTAL_ROWS -> toRow (rowToTime r) = Some r.
Proof.
  intros Hr.
  pose proof (proj1 (forallb_forall _ _) roundtrip_on_validRows r
                (validRows_complete r Hr)) as Hc.
  cbv beta in Hc.
  destruct (toRow (rowToTime r)) as [r'|]; [|discriminate].
  apply Z.eqb_eq in Hc. now subst.
Qed.

Lemma toRow_rowToTime_witness :
  0 <= 13 <= TOTAL_ROWS /\ toRow (rowToTime 13) = Some 13.
Proof.
  split; [unfold TOTAL_ROWS; lia | apply (toRow_rowToTime 13)].
  unfold TOTAL_ROWS; lia.
Defined.

End TimeModel.

(* ================================================================= *)
(** ** Small facts on the boolean tests *)

Lemma TaskType_eqb_eq (a b : TaskType) : TaskType_eqb a b = true <-> a = b.
Proof. destruct a, b; simpl; split; intro H; try reflexivity; discriminate. Qed.

Lemma TaskType_eqb_refl (a : TaskType) : TaskType_eqb a a = true.
Proof. now apply TaskType_eqb_eq. Qed.

Lemma ofEmp_true (e : string) (t : Task) :
  ofEmp e t = true <-> task_empId t = e.
Proof. unfold ofEmp. apply String.eqb_eq. Qed.

Lemma notOfEmp_ofEmp (e : string) (t : Task) :
  notOfEmp e t = negb (ofEmp e t).
Proof. reflexivity. Qed.

Lemma notOfEmp_false (e : string) (t : Task) :
  notOfEmp e t = false <-> task_empId t = e.
Proof.
  unfold notOfEmp. rewrite negb_false_iff. apply String.eqb_eq.
Qed.

Lemma notOfEmp_true (e : string) (t : Task) :
  notOfEmp e t = true <-> task_empId t <> e.
Proof.
  unfold notOfEmp. rewrite negb_true_iff. apply String.eqb_neq.
Qed.

Lemma with_end_empId t e : task_empId (with_end t e) = task_empId t.
Proof. reflexivity. Qed.

Lemma with_start_empId t s : task_empId (with_start t s) = task_empId t.
Proof. reflexivity. Qed.

Lemma filter_none {A : Type} (f : A -> bool) (l : list A) :
  (forall x, In x l -> f x = false) -> filter f l = [].
Proof.
  induction l as [|x r IH]; intros H; simpl; [reflexivity|].
  rewrite (H x (or_introl eq_refl)). apply IH.
  intros y Hy. apply H. now right.
Qed.

Lemma filter_all {A : Type} (f : A -> bool) (l : list A) :
  (forall x, In x l -> f x = true) -> filter f l = l.
Proof.
  induction l as [|x r IH]; intros H; simpl; [reflexivity|].
  rewrite (H x (or_introl eq_refl)). f_equal. apply IH.
  intros y Hy. apply H. now right.
Qed.

(** Turns the comparisons of a goal or hypothesis into propositions. *)
Ltac zbool :=
  repeat match goal with
  | H : _ && _ = true |- _ => apply andb_true_iff in H; destruct H
  | H : _ || _ = false |- _ => apply orb_false_iff in H; destruct H
  | H : (_ <=? _) = true |- _ => apply Z.leb_le in H
  | H : (_ <=? _) = false |- _ => apply Z.leb_gt in H
  | H : (_ <? _) = true |- _ => apply Z.ltb_lt in H
  | H : (_ <? _) = false |- _ => apply Z.ltb_ge in H
  | H : (_ >=? _) = true |- _ => rewrite Z.geb_leb in H
  | H : (_ >=? _) = false |- _ => rewrite Z.geb_leb in H
  | H : (_ >? _) = true |- _ => rewrite Z.gtb_ltb in H
  | H : (_ >? _) = false |- _ => rewrite Z.gtb_ltb in H
  | H : (_ =? _) = true |- _ => apply Z.eqb_eq in H
  | H : (_ =? _) = false |- _ => apply Z.eqb_neq in H
  end.

(* ================================================================= *)
(** ** The overlap resolver *)

Section Resolver.

Variables (empId : string) (start end_ : Z) (exceptId : option string).

Let body := resolveTask empId start end_ exceptId.

Lemma resolve_fold (prev acc : list Task) :
  fold_left (fun next t => next ++ body t) prev acc
  = acc ++ flat_map body prev.
Proof.
  revert acc. induction prev as [|t r IH]; intro acc; simpl.
  - now rewrite app_nil_r.
  - rewrite IH. now rewrite app_assoc.
Qed.

Lemma resolveOverlaps_flat_map (prev : list Task) :
  resolveOverlaps empId start end_ exceptId prev = flat_map body prev.
Proof. unfold resolveOverlaps. apply (resolve_fold prev []). Qed.

Lemma resolveTask_skip (t : Task) :
  notOfEmp empId t || isExcept exceptId t = true -> body t = [t].
Proof. unfold body, resolveTask. now intros ->. Qed.

(** What the loop appends for a task it does examine, by comparisons. *)
Lemma resolveTask_cases (t : Task) :
  notOfEmp empId t || isExcept exceptId t = false ->
  (~ overlapsRange t start end_ -> body t = [t]) /\
  (overlapsRange t start end_ ->
     (task_start t >= start /\ task_end t <= end_ -> body t = []) /\
     (task_start t < start /\ task_end t <= end_ ->
        body t = [with_end t start]) /\
     (task_start t >= start /\ task_end t > end_ ->
        body t = [with_start t end_]) /\
     (task_start t < start /\ task_end t > end_ ->
        body t = [with_end t start; with_start t end_])).
Proof.
  intros Hg. unfold body, resolveTask, overlapsRange. rewrite Hg.
  destruct (task_end t <=? start) eqn:E1;
    destruct (task_start t >=? end_) eqn:E2;
    destruct (task_start t >=? start) eqn:E3;
    destruct (task_end t <=? end_) eqn:E4;
    destruct (task_start t <? start) eqn:E5;
    destruct (task_end t >? end_) eqn:E6;
    zbool; simpl; repeat split; intros; try reflexivity; lia.
Qed.

(** Everything the loop appends lies outside the range. *)
Lemma resolveTask_clear (t u : Task) :
  notOfEmp empId t || isExcept exceptId t = false ->
  In u (body t) ->
  task_end u <= start \/ task_start u >= end_.
Proof.
  intros Hg. unfold body, resolveTask. rewrite Hg.
  destruct (task_end t <=? start) eqn:E1;
    destruct (task_start t >=? end_) eqn:E2;
    destruct (task_start t >=? start) eqn:E3;
    destruct (task_end t <=? end_) eqn:E4;
    destruct (task_start t <? start) eqn:E5;
    destruct (task_end t >? end_) eqn:E6;
    zbool; simpl; intros Hin;
    repeat (destruct Hin as [<-|Hin]); try contradiction; simpl; lia.
Qed.

(** The pieces keep the id and the owner of the task they come from. *)
Lemma resolveTask_same_owner (t u : Task) :
  In u (body t) ->
  task_empId u = task_empId t /\ task_id u = task_id t /\
  task_type u = task_type t /\ task_label u = task_label t.
Proof.
  unfold body, resolveTask.
  repeat match goal with
         | |- context [if ?c then _ else _] => destruct c
         end; simpl; intros Hin;
    repeat (destruct Hin as [<-|Hin]); try contradiction; auto.
Qed.

Lemma resolveTask_again (t u : Task) :
  In u (body t) -> body u = [u].
Proof.
  intros Hin.
  destruct (notOfEmp empId t || isExcept exceptId t) eqn:Hg.
  - rewrite (resolveTask_skip t Hg) in Hin.
    destruct Hin as [<-|[]]. now apply resolveTask_skip.
  - pose proof (resolveTask_clear t u Hg Hin) as Hc.
    destruct (resolveTask_same_owner t u Hin) as (Ho & Hi & _).
    assert (Hg' : notOfEmp empId u || isExcept exceptId u = false).
    { rewrite <- Hg. unfold notOfEmp, isExcept. rewrite Ho.
      destruct exceptId; [now rewrite Hi | reflexivity]. }
    apply (proj1 (resolveTask_cases u Hg')).
    unfold overlapsRange. lia.
Qed.

Lemma flat_map_fixed (l : list Task) :
  (forall u, In u l -> body u = [u]) -> flat_map body l = l.
Proof.
  induction l as [|u r IH]; intros H; simpl; [reflexivity|].
  rewrite (H u (or_introl eq_refl)). simpl. f_equal.
  apply IH. intros v Hv. apply H. now right.
Qed.

Lemma resolveOverlaps_idem (prev : list Task) :
  resolveOverlaps empId start end_ exceptId
    (resolveOverlaps empId start end_ exceptId prev)
  = resolveOverlaps empId start end_ exceptId prev.
Proof.
  rewrite !resolveOverlaps_flat_map. apply flat_map_fixed.
  intros u Hu. apply in_flat_map in Hu. destruct Hu as (t & _ & Hu).
  now apply (resolveTask_again t).
Qed.

Lemma resolveOverlaps_others (prev : list Task) :
  filter (notOfEmp empId) (resolveOverlaps empId start end_ exceptId prev)
  = filter (notOfEmp empId) prev.
Proof.
  rewrite resolveOverlaps_flat_map.
  induction prev as [|t r IH]; simpl; [reflexivity|].
  rewrite filter_app, IH.
  destruct (notOfEmp empId t) eqn:Ht.
  - rewrite resolveTask_skip by now rewrite Ht.
    simpl. now rewrite Ht.
  - replace (filter (notOfEmp empId) (body t)) with (@nil Task);
      [reflexivity|].
    symmetry. apply filter_none. intros u Hu.
    destruct (resolveTask_same_owner t u Hu) as (Ho & _).
    unfold notOfEmp in *. now rewrite Ho.
Qed.

End Resolver.

(* ================================================================= *)
(** ** The sort *)

Section Sorting.

Lemma insertByStart_perm (t : Task) (l : list Task) :
  Permutation (t :: l) (insertByStart t l).
Proof.
  induction l as [|x r IH]; simpl; [apply Permutation_refl|].
  destruct (task_start t <=? task_start x); [apply Permutation_refl|].
  eapply perm_trans; [apply perm_swap|]. now apply perm_skip.
Qed.

Lemma sortByStart_perm (l : list Task) : Permutation l (sortByStart l).
Proof.
  induction l as [|t r IH]; simpl; [apply perm_nil|].
  eapply perm_trans; [apply perm_skip, IH | apply insertByStart_perm].
Qed.

Lemma sortByStart_In (l : list Task) (t : Task) :
  In t (sortByStart l) <-> In t l.
Proof.
  split; apply Permutation_in;
    [apply Permutation_sym|]; apply sortByStart_perm.
Qed.

Lemma insertByStart_sorted (t : Task) (l : list Task) :
  StronglySorted leStart l -> StronglySorted leStart (insertByStart t l).
Proof.
  induction 1 as [|x r Hs IH Hx]; simpl.
  - constructor; constructor.
  - destruct (task_start t <=? task_start x) eqn:E; zbool.
    + constructor; [now constructor|].
      constructor; [exact E|].
      eapply Forall_impl; [|exact Hx]. unfold leStart. intros; lia.
    + constructor; [exact IH|].
      eapply Permutation_Forall; [apply insertByStart_perm|].
      constructor; [unfold leStart; lia | exact Hx].
Qed.

Lemma sortByStart_sorted (l : list Task) :
  StronglySorted leStart (sortByStart l).
Proof.
  induction l as [|t r IH]; simpl; [constructor|].
  now apply insertByStart_sorted.
Qed.

(** Stability: a list already in order is left as it is. *)
Lemma sortByStart_fixed (l : list Task) :
  StronglySorted leStart l -> sortByStart l = l.
Proof.
  induction 1 as [|x r Hs IH Hx]; simpl; [reflexivity|].
  rewrite IH. destruct r as [|y r']; simpl; [reflexivity|].
  inversion Hx as [|? ? Hxy _]; subst. unfold leStart in Hxy.
  apply Z.leb_le in Hxy. now rewrite Hxy.
Qed.

(** Stability: tasks with the same start keep their order. *)
Example sortByStart_stable :
  map task_id
    (sortByStart [ mkTask "a" "e" tour "x" 2 3; mkTask "b" "e" tour "x" 1 2;
                   mkTask "c" "e" tour "x" 2 4; mkTask "d" "e" tour "x" 1 5 ])
  = ["b"; "d"; "a"; "c"].
Proof. reflexivity. Qed.

End Sorting.

(* ================================================================= *)
(** ** The merge loop *)

Section Compactor.

Lemma lastOpt_snoc {A : Type} (l : list A) (x : A) :
  lastOpt (l ++ [x]) = Some x.
Proof.
  induction l as [|y r IH]; simpl; [reflexivity|].
  destruct (r ++ [x]) eqn:E; [now destruct r | exact IH].
Qed.

Lemma mergeStep_snoc (pre : list Task) (cur t : Task) :
  mergeStep (pre ++ [cur]) t =
  if sameKind cur t then pre ++ [with_end cur (task_end t)]
  else (pre ++ [cur]) ++ [t].
Proof.
  unfold mergeStep. now rewrite lastOpt_snoc, removelast_last.
Qed.

Lemma mergeLoop_from (arr pre : list Task) (cur : Task) :
  fold_left mergeStep arr (pre ++ [cur]) = pre ++ mergeFrom cur arr.
Proof.
  revert pre cur. induction arr as [|t r IH]; intros pre cur; simpl.
  - reflexivity.
  - rewrite mergeStep_snoc. destruct (sameKind cur t).
    + apply IH.
    + rewrite IH, <- app_assoc. reflexivity.
Qed.

Lemma mergeLoop_cons (t : Task) (r : list Task) :
  mergeLoop (t :: r) = mergeFrom t r.
Proof. unfold mergeLoop. simpl. apply (mergeLoop_from r [] t). Qed.

Lemma with_end_same (t : Task) : with_end t (task_end t) = t.
Proof. now destruct t. Qed.

(** The first task kept is the first task met, up to its end. *)
Lemma mergeFrom_head (arr : list Task) (cur : Task) :
  exists e rest, mergeFrom cur arr = with_end cur e :: rest.
Proof.
  revert cur. induction arr as [|t r IH]; intro cur; simpl.
  - exists (task_end cur), []. now rewrite with_end_same.
  - destruct (sameKind cur t).
    + destruct (IH (with_end cur (task_end t))) as (e & rest & ->).
      now exists e, rest.
    + exists (task_end cur), (mergeFrom t r). now rewrite with_end_same.
Qed.

(** Every task kept is a task met, up to its end. *)
Lemma mergeFrom_origin (arr : list Task) (cur u : Task) :
  In u (mergeFrom cur arr) ->
  exists t e, In t (cur :: arr) /\ u = with_end t e.
Proof.
  revert cur. induction arr as [|t r IH]; intro cur; simpl.
  - intros [<-|[]]. exists cur, (task_end cur).
    split; [now left | now rewrite with_end_same].
  - destruct (sameKind cur t).
    + intros Hu. destruct (IH _ Hu) as (t' & e & [<-|Hin] & ->).
      * exists cur, e. split; [now left | reflexivity].
      * exists t', e. split; [now right; right | reflexivity].
    + intros [<-|Hu].
      * exists cur, (task_end cur).
        split; [now left | now rewrite with_end_same].
      * destruct (IH _ Hu) as (t' & e & Hin & ->).
        exists t', e. split; [now right | reflexivity].
Qed.

Lemma mergeFrom_Forall (P : Task -> Prop) (arr : list Task) (cur : Task) :
  (forall t e, P t -> P (with_end t e)) ->
  Forall P (cur :: arr) -> Forall P (mergeFrom cur arr).
Proof.
  intros HP HF. apply Forall_forall. intros u Hu.
  destruct (mergeFrom_origin arr cur u Hu) as (t & e & Hin & ->).
  apply HP. rewrite Forall_forall in HF. now apply HF.
Qed.

Lemma mergeLoop_Forall (P : Task -> Prop) (arr : list Task) :
  (forall t e, P t -> P (with_end t e)) ->
  Forall P arr -> Forall P (mergeLoop arr).
Proof.
  destruct arr as [|t r]; [constructor|].
  rewrite mergeLoop_cons. apply mergeFrom_Forall.
Qed.

Lemma mergeFrom_sorted (arr : list Task) (cur : Task) :
  StronglySorted leStart (cur :: arr) ->
  StronglySorted leStart (mergeFrom cur arr).
Proof.
  revert cur. induction arr as [|t r IH]; intros cur Hs; simpl.
  - exact Hs.
  - apply StronglySorted_inv in Hs. destruct Hs as [Hs Hc].
    destruct (sameKind cur t).
    + apply IH. apply StronglySorted_inv in Hs. destruct Hs as [Hs _].
      constructor; [exact Hs|].
      apply Forall_inv_tail in Hc.
      eapply Forall_impl; [|exact Hc]. intros a Ha. exact Ha.
    + constructor; [now apply IH|].
      apply mergeFrom_Forall; [|exact Hc]. intros a e Ha. exact Ha.
Qed.

Lemma mergeLoop_sorted (arr : list Task) :
  StronglySorted leStart arr -> StronglySorted leStart (mergeLoop arr).
Proof.
  destruct arr as [|t r]; [intros _; constructor|].
  rewrite mergeLoop_cons. apply mergeFrom_sorted.
Qed.

Lemma sameKind_with_end_r (a t : Task) (e : Z) :
  sameKind a (with_end t e) = sameKind a t.
Proof. reflexivity. Qed.

Lemma mergeFrom_settled (arr : list Task) (cur : Task) :
  settled (mergeFrom cur arr).
Proof.
  revert cur. induction arr as [|t r IH]; intro cur; simpl.
  - repeat constructor.
  - destruct (sameKind cur t) eqn:E; [apply IH|].
    constructor; [apply IH|].
    destruct (mergeFrom_head r t) as (e & rest & ->).
    constructor. now rewrite sameKind_with_end_r.
Qed.

Lemma mergeFrom_fixed (arr : list Task) (cur : Task) :
  settled (cur :: arr) -> mergeFrom cur arr = cur :: arr.
Proof.
  revert cur. induction arr as [|t r IH]; intros cur Hs; simpl.
  - reflexivity.
  - apply Sorted_inv in Hs. destruct Hs as [Hs Hh].
    apply HdRel_inv in Hh. rewrite Hh. f_equal. now apply IH.
Qed.

Lemma mergeLoop_idem (arr : list Task) :
  mergeLoop (mergeLoop arr) = mergeLoop arr.
Proof.
  destruct arr as [|t r]; [reflexivity|].
  rewrite mergeLoop_cons.
  pose proof (mergeFrom_settled r t) as Hs.
  destruct (mergeFrom t r) as [|u rest]; [reflexivity|].
  rewrite mergeLoop_cons. now apply mergeFrom_fixed.
Qed.

End Compactor.

(* ================================================================= *)
(** ** The compactor on the store *)

Section CompactorStore.

Variable empId : string.

Let mine (prev : list Task) := sortByStart (filter (ofEmp empId) prev).

Lemma mine_owner (prev : list Task) :
  Forall (fun t => task_empId t = empId) (mine prev).
Proof.
  apply Forall_forall. intros t Ht. unfold mine in Ht.
  apply (proj1 (sortByStart_In _ _)) in Ht.
  apply filter_In in Ht. now apply ofEmp_true.
Qed.

Lemma keep_owner (prev : list Task) :
  Forall (fun t => task_empId t = empId) (mergeLoop (mine prev)).
Proof.
  apply mergeLoop_Forall; [|apply mine_owner]. intros t e Ht. exact Ht.
Qed.

Lemma filter_ofEmp_others (prev : list Task) :
  filter (ofEmp empId) (filter (notOfEmp empId) prev) = [].
Proof.
  apply filter_none. intros t Ht. apply filter_In in Ht.
  destruct Ht as [_ Ht]. rewrite notOfEmp_ofEmp in Ht.
  now apply negb_true_iff.
Qed.

Lemma filter_notOfEmp_others (prev : list Task) :
  filter (notOfEmp empId) (filter (notOfEmp empId) prev)
  = filter (notOfEmp empId) prev.
Proof. apply filter_all. intros t Ht. now apply filter_In in Ht. Qed.

Lemma mergeAdjacent_mine (prev : list Task) :
  filter (ofEmp empId) (mergeAdjacent empId prev) = mergeLoop (mine prev).
Proof.
  unfold mergeAdjacent. rewrite filter_app, filter_ofEmp_others. simpl.
  fold (mine prev). apply filter_all. intros t Ht. apply ofEmp_true.
  pose proof (keep_owner prev) as Hk. rewrite Forall_forall in Hk.
  now apply Hk.
Qed.

Lemma mergeAdjacent_others (prev : list Task) :
  filter (notOfEmp empId) (mergeAdjacent empId prev)
  = filter (notOfEmp empId) prev.
Proof.
  unfold mergeAdjacent. rewrite filter_app, filter_notOfEmp_others.
  fold (mine prev).
  rewrite (filter_none (notOfEmp empId) (mergeLoop (mine prev)));
    [apply app_nil_r|].
  intros t Ht. apply notOfEmp_false.
  pose proof (keep_owner prev) as Hk. rewrite Forall_forall in Hk.
  now apply Hk.
Qed.

Lemma mergeAdjacent_mine_sorted (prev : list Task) :
  StronglySorted leStart (filter (ofEmp empId) (mergeAdjacent empId prev)).
Proof.
  rewrite mergeAdjacent_mine. apply mergeLoop_sorted, sortByStart_sorted.
Qed.

Lemma mergeAdjacent_idem (prev : list Task) :
  mergeAdjacent empId (mergeAdjacent empId prev) = mergeAdjacent empId prev.
Proof.
  unfold mergeAdjacent at 1.
  rewrite mergeAdjacent_mine, mergeAdjacent_others.
  rewrite sortByStart_fixed
    by apply mergeLoop_sorted, sortByStart_sorted.
  now rewrite mergeLoop_idem.
Qed.

(** The store splits into the tasks of the others and mine. *)
Lemma split_by_owner (prev : list Task) :
  Permutation prev
    (filter (notOfEmp empId) prev ++ filter (ofEmp empId) prev).
Proof.
  induction prev as [|t r IH]; simpl; [apply perm_nil|].
  rewrite notOfEmp_ofEmp. destruct (ofEmp empId t); simpl.
  - eapply perm_trans; [apply perm_skip, IH|]. apply Permutation_middle.
  - now apply perm_skip.
Qed.

Lemma before_merge_perm (prev : list Task) :
  Permutation prev (filter (notOfEmp empId) prev ++ mine prev).
Proof.
  eapply perm_trans; [apply split_by_owner|].
  apply Permutation_app_head, sortByStart_perm.
Qed.

End CompactorStore.

(* ================================================================= *)
(** ** Tour-like tasks and the merge loop *)

Section TourLock.

Lemma isTourLike_iff (k : TaskType) :
  isTourLike k = true <-> k = tour \/ k = school_program.
Proof.
  destruct k; simpl; split; intro H; try discriminate; auto;
    destruct H; discriminate.
Qed.

Lemma sameKind_tour (last t : Task) :
  isTourLike (task_type last) = true \/ isTourLike (task_type t) = true ->
  sameKind last t = false.
Proof.
  unfold sameKind. intros [H|H]; rewrite H; simpl.
  - apply andb_false_r.
  - rewrite andb_false_r. reflexivity.
Qed.

Lemma sameKind_true (last t : Task) :
  sameKind last t = true <->
  task_type last = task_type t /\ task_label last = task_label t /\
  task_end last = task_start t /\
  isTourLike (task_type t) = false /\ isTourLike (task_type last) = false.
Proof.
  unfold sameKind. rewrite !andb_true_iff, !negb_true_iff.
  rewrite TaskType_eqb_eq, String.eqb_eq, Z.eqb_eq. tauto.
Qed.

(** The tour-like tasks come out of the loop as they went in. *)
Lemma mergeFrom_tours (arr : list Task) (cur : Task) :
  filter tourLikeTask (mergeFrom cur arr) = filter tourLikeTask (cur :: arr).
Proof.
  revert cur. induction arr as [|t r IH]; intro cur; [reflexivity|].
  cbn [mergeFrom]. destruct (sameKind cur t) eqn:E.
  - apply sameKind_true in E. destruct E as (_ & _ & _ & Ht & Hc).
    assert (H1 : tourLikeTask (with_end cur (task_end t)) = false)
      by exact Hc.
    assert (H2 : tourLikeTask cur = false) by exact Hc.
    assert (H3 : tourLikeTask t = false) by exact Ht.
    rewrite IH. cbn [filter]. now rewrite H1, H2, H3.
  - cbn [filter]. now rewrite IH.
Qed.

Lemma mergeLoop_tours (arr : list Task) :
  filter tourLikeTask (mergeLoop arr) = filter tourLikeTask arr.
Proof.
  destruct arr as [|t r]; [reflexivity|].
  rewrite mergeLoop_cons. apply mergeFrom_tours.
Qed.

Lemma filter_perm {A : Type} (f : A -> bool) (l l' : list A) :
  Permutation l l' -> Permutation (filter f l) (filter f l').
Proof.
  induction 1 as [|x l l' _ IH|x y l|l l' l'' _ IH1 _ IH2]; simpl.
  - apply perm_nil.
  - destruct (f x); [now apply perm_skip | exact IH].
  - destruct (f x), (f y);
      [apply perm_swap | apply Permutation_refl ..].
  - eapply perm_trans; eassumption.
Qed.

Lemma mergeAdjacent_tours (empId : string) (prev : list Task) :
  Permutation (filter tourLikeTask prev)
              (filter tourLikeTask (mergeAdjacent empId prev)).
Proof.
  unfold mergeAdjacent. rewrite filter_app, mergeLoop_tours.
  rewrite <- filter_app. apply filter_perm, before_merge_perm.
Qed.

End TourLock.

(* ================================================================= *)
(** ** Pairwise relations on a list *)

Section Pairwise.

Context {A : Type} (R : A -> A -> Prop).
Hypothesis R_sym : forall a b, R a b -> R b a.

Lemma FOP_app (l1 l2 : list A) :
  ForallOrdPairs R (l1 ++ l2) <->
  ForallOrdPairs R l1 /\ ForallOrdPairs R l2 /\
  (forall a b, In a l1 -> In b l2 -> R a b).
Proof.
  induction l1 as [|x r IH]; simpl.
  - split.
    + intros H. repeat split; [constructor | exact H | intros ? ? []].
    + now intros (_ & H & _).
  - split.
    + intros H. inversion H as [|? ? Hx Hr]; subst.
      apply IH in Hr. destruct Hr as (H1 & H2 & H3).
      apply Forall_app in Hx. destruct Hx as [Hx1 Hx2].
      repeat split; [now constructor | exact H2 |].
      intros a b [<-|Ha] Hb.
      * rewrite Forall_forall in Hx2. now apply Hx2.
      * now apply H3.
    + intros (H1 & H2 & H3). inversion H1 as [|? ? Hx Hr]; subst.
      constructor.
      * apply Forall_app. split; [exact Hx|].
        apply Forall_forall. intros b Hb. apply H3; [now left | exact Hb].
      * apply IH. repeat split; [exact Hr | exact H2 |].
        intros a b Ha Hb. apply H3; [now right | exact Hb].
Qed.

Lemma FOP_perm (l l' : list A) :
  Permutation l l' -> ForallOrdPairs R l -> ForallOrdPairs R l'.
Proof.
  induction 1 as [|x l l' Hp IH|x y l|l l' l'' _ IH1 _ IH2]; intros H.
  - exact H.
  - inversion H as [|? ? Hx Hr]; subst. constructor.
    + eapply Permutation_Forall; eassumption.
    + now apply IH.
  - inversion H as [|? ? Hy Hr]; subst.
    inversion Hr as [|? ? Hx Hl]; subst.
    inversion Hy as [|? ? Hyx Hyl]; subst.
    constructor; [constructor; [now apply R_sym | exact Hx]|].
    now constructor.
  - auto.
Qed.

Lemma FOP_nth (l : list A) :
  ForallOrdPairs R l <->
  (forall i j a b, i <> j -> nth_error l i = Some a ->
                   nth_error l j = Some b -> R a b).
Proof.
  induction l as [|x r IH].
  - split; [|constructor]. intros _ [|i] j a b _ Hi; discriminate.
  - split.
    + intros H. inversion H as [|? ? Hx Hr]; subst.
      rewrite Forall_forall in Hx.
      intros [|i] [|j] a b Hij Hi Hj; simpl in *.
      * contradiction.
      * injection Hi as <-. apply Hx. eapply nth_error_In; eassumption.
      * injection Hj as <-. apply R_sym, Hx.
        eapply nth_error_In; eassumption.
      * apply (proj1 IH Hr i j); auto.
    + intros H. constructor.
      * apply Forall_forall. intros b Hb.
        destruct (In_nth_error _ _ Hb) as [j Hj].
        apply (H 0%nat (S j)); [discriminate | reflexivity | exact Hj].
      * apply IH. intros i j a b Hij Hi Hj.
        apply (H (S i) (S j)); [congruence | exact Hi | exact Hj].
Qed.

End Pairwise.

(* ================================================================= *)
(** ** Stores of the data model *)

Section GoodStores.

Lemma apart_sym (a b : Task) : apart a b -> apart b a.
Proof.
  unfold apart, disjoint. intros H E. symmetry in E.
  destruct (H E); [now right | now left].
Qed.

Lemma noOverlap_FOP (l : list Task) :
  noOverlap l <-> ForallOrdPairs apart l.
Proof.
  rewrite (FOP_nth apart apart_sym). unfold noOverlap, apart.
  split; intros H i j a b; specialize (H i j a b); tauto.
Qed.

Lemma goodStore_perm (l l' : list Task) :
  Permutation l l' -> goodStore l -> goodStore l'.
Proof.
  intros Hp [Hv Hd]. split.
  - eapply Permutation_Forall; eassumption.
  - eapply FOP_perm; [exact apart_sym | exact Hp | exact Hd].
Qed.

Lemma validTaskb_true (t : Task) : validTaskb t = true <-> validTask t.
Proof. unfold validTaskb, validTask. apply Z.ltb_lt. Qed.

Lemma clashFree_apart (a : Task) (l : list Task) :
  clashFree a l = true -> Forall (apart a) l.
Proof.
  unfold clashFree. rewrite forallb_forall, Forall_forall.
  intros H b Hb E. specialize (H b Hb).
  apply orb_true_iff in H. destruct H as [H|H].
  - apply negb_true_iff, String.eqb_neq in H. contradiction.
  - unfold disjointb in H. apply orb_true_iff in H. unfold disjoint.
    destruct H as [H|H]; apply Z.leb_le in H; [now left | now right].
Qed.

Lemma noOverlapb_true (l : list Task) :
  noOverlapb l = true -> noOverlap l.
Proof.
  intros H. apply noOverlap_FOP.
  induction l as [|a r IH]; [constructor|].
  simpl in H. apply andb_true_iff in H. destruct H as [Ha Hr].
  constructor; [now apply clashFree_apart | now apply IH].
Qed.

Lemma forallb_validTask (l : list Task) :
  forallb validTaskb l = true -> Forall validTask l.
Proof.
  rewrite forallb_forall, Forall_forall. intros H t Ht.
  now apply validTaskb_true, H.
Qed.

(** Merging two contiguous tasks of one employee keeps them apart from
    every third task. *)
Lemma merged_apart (cur t x : Task) :
  sameKind cur t = true -> task_empId cur = task_empId t ->
  validTask x -> apart cur x -> apart t x ->
  apart (with_end cur (task_end t)) x.
Proof.
  intros Hk He Hx Hc Ht E. rewrite with_end_empId in E.
  apply sameKind_true in Hk. destruct Hk as (_ & _ & Hadj & _).
  unfold apart, disjoint, validTask in *. simpl.
  specialize (Hc E). rewrite <- He in Ht. specialize (Ht E). lia.
Qed.

Lemma merged_good (cur t : Task) (rest : list Task) :
  sameKind cur t = true -> task_empId cur = task_empId t ->
  goodStore (cur :: t :: rest) ->
  goodStore (with_end cur (task_end t) :: rest).
Proof.
  intros Hk He [Hv Hd].
  inversion Hv as [|? ? Hvc Hv1]; subst.
  inversion Hv1 as [|? ? Hvt Hvr]; subst.
  inversion Hd as [|? ? Hc Hd1]; subst.
  inversion Hd1 as [|? ? Ht Hdr]; subst.
  inversion Hc as [|? ? _ Hcr]; subst.
  pose proof (proj1 (sameKind_true _ _) Hk) as (_ & _ & Hadj & _).
  split; constructor; try assumption.
  - unfold validTask in *. simpl. lia.
  - rewrite Forall_forall in *. intros x Hx.
    apply merged_apart; auto.
Qed.

Lemma mergeFrom_good (arr pre : list Task) (cur : Task) :
  (forall t, In t (cur :: arr) -> task_empId t = task_empId cur) ->
  goodStore (pre ++ cur :: arr) -> goodStore (pre ++ mergeFrom cur arr).
Proof.
  revert pre cur. induction arr as [|t r IH]; intros pre cur Hown Hg.
  - exact Hg.
  - cbn [mergeFrom]. destruct (sameKind cur t) eqn:Hk.
    + apply IH.
      * intros u [<-|Hu]; [reflexivity|].
        rewrite with_end_empId. apply Hown. now right; right.
      * assert (He : task_empId cur = task_empId t).
        { symmetry. apply Hown. right. now left. }
        eapply goodStore_perm; [apply Permutation_middle|].
        apply merged_good; [exact Hk | exact He |].
        eapply goodStore_perm; [|exact Hg].
        apply Permutation_sym.
        eapply perm_trans; [|apply Permutation_middle].
        apply perm_skip.
        apply (Permutation_middle pre r t).
    + replace (pre ++ cur :: mergeFrom t r)
        with ((pre ++ [cur]) ++ mergeFrom t r)
        by (now rewrite <- app_assoc).
      apply IH.
      * intros u Hu. rewrite (Hown u) by now right.
        symmetry. apply Hown. right. now left.
      * now rewrite <- app_assoc.
Qed.

Lemma mergeAdjacent_good (empId : string) (prev : list Task) :
  goodStore prev -> goodStore (mergeAdjacent empId prev).
Proof.
  intros Hg. unfold mergeAdjacent.
  pose proof (before_merge_perm empId prev) as Hp.
  pose proof (mine_owner empId prev) as Ho. cbv beta zeta in Ho.
  apply (goodStore_perm _ _ Hp) in Hg.
  destruct (sortByStart (filter (ofEmp empId) prev)) as [|c rest].
  - exact Hg.
  - rewrite mergeLoop_cons. apply mergeFrom_good; [|exact Hg].
    rewrite Forall_forall in Ho. intros u Hu.
    rewrite (Ho u Hu). symmetry. apply Ho. now left.
Qed.

End GoodStores.

(* ================================================================= *)
(** ** The resolver on stores of the data model *)

Section ResolverStore.

Variables (empId : string) (start end_ : Z) (exceptId : option string).
Hypothesis range_ok : start < end_.

Let body := resolveTask empId start end_ exceptId.

Lemma resolveTask_piece (t u : Task) :
  validTask t -> In u (body t) -> pieceOf u t /\ validTask u.
Proof.
  unfold body, resolveTask, pieceOf, validTask. intros Hv.
  destruct (notOfEmp empId t || isExcept exceptId t);
    [intros [<-|[]]; repeat split; try reflexivity; lia|].
  destruct (task_end t <=? start) eqn:E1;
    destruct (task_start t >=? end_) eqn:E2;
    destruct (task_start t >=? start) eqn:E3;
    destruct (task_end t <=? end_) eqn:E4;
    destruct (task_start t <? start) eqn:E5;
    destruct (task_end t >? end_) eqn:E6;
    zbool; simpl; intros Hin;
    repeat (destruct Hin as [<-|Hin]); try contradiction; simpl;
    repeat split; try reflexivity; lia.
Qed.

Lemma resolveTask_pieces_apart (t : Task) :
  ForallOrdPairs apart (body t).
Proof.
  unfold body, resolveTask.
  repeat match goal with
         | |- context [if ?c then _ else _] => destruct c
         end; try solve [repeat constructor].
  constructor; [constructor; [|constructor] | repeat constructor].
  intros _. unfold disjoint. simpl. lia.
Qed.

Lemma pieces_apart (a b t t' : Task) :
  pieceOf a t -> pieceOf b t' -> apart t t' -> apart a b.
Proof.
  unfold pieceOf, apart, disjoint.
  intros (Ea & Ha1 & Ha2) (Eb & Hb1 & Hb2) Ht E.
  rewrite Ea, Eb in E. specialize (Ht E). lia.
Qed.

Lemma resolve_good (prev : list Task) :
  goodStore prev -> goodStore (flat_map body prev).
Proof.
  induction prev as [|t r IH]; intros [Hv Hd]; [split; constructor|].
  inversion Hv as [|? ? Hvt Hvr]; subst.
  inversion Hd as [|? ? Ht Hdr]; subst.
  destruct (IH (conj Hvr Hdr)) as [IHv IHd].
  simpl. split.
  - apply Forall_app. split; [|exact IHv].
    apply Forall_forall. intros u Hu.
    now apply (resolveTask_piece t u).
  - apply FOP_app. repeat split;
      [apply resolveTask_pieces_apart | exact IHd |].
    intros a b Ha Hb. apply in_flat_map in Hb.
    destruct Hb as (t' & Ht' & Hb).
    rewrite Forall_forall in Hvr, Ht.
    apply (pieces_apart a b t t').
    + now apply resolveTask_piece.
    + apply resolveTask_piece; [now apply Hvr | exact Hb].
    + now apply Ht.
Qed.

Lemma resolveOverlaps_good (prev : list Task) :
  goodStore prev ->
  goodStore (resolveOverlaps empId start end_ exceptId prev).
Proof. rewrite resolveOverlaps_flat_map. apply resolve_good. Qed.

End ResolverStore.

Section Placement.

Variables (empId : string) (row : Z) (type : TaskType).

Let placed (st : AppState) : Task :=
  mkTask ("t_" ++ numToString (seq st + 1))%string empId type
         (TYPE_LABEL type) row (row + 1).

Let resolved (st : AppState) : list Task :=
  resolveOverlaps empId row (row + 1) None (tasks st).

Lemma addTaskAt_tasks (st : AppState) :
  tasks (addTaskAt empId row type st) =
  if isTourLike type then resolved st ++ [placed st]
  else mergeAdjacent empId (resolved st ++ [placed st]).
Proof.
  unfold addTaskAt, resolved, placed. simpl.
  destruct (isTourLike type); reflexivity.
Qed.

(** After the resolver has run without [exceptId], no task of the
    employee is left on the range. *)
Lemma resolved_clear (st : AppState) (u : Task) :
  In u (resolved st) -> task_empId u = empId ->
  task_end u <= row \/ task_start u >= row + 1.
Proof.
  unfold resolved. rewrite resolveOverlaps_flat_map.
  intros Hu He. apply in_flat_map in Hu. destruct Hu as (t & _ & Hu).
  destruct (notOfEmp empId t || isExcept None t) eqn:Hg.
  - rewrite (resolveTask_skip _ _ _ _ t Hg) in Hu.
    destruct Hu as [<-|[]]. simpl in Hg. rewrite orb_false_r in Hg.
    apply notOfEmp_true in Hg. contradiction.
  - eapply resolveTask_clear; eassumption.
Qed.

Lemma placed_good (st : AppState) :
  goodStore (tasks st) -> goodStore (resolved st ++ [placed st]).
Proof.
  intros Hg.
  assert (Hr : goodStore (resolved st))
    by (apply resolveOverlaps_good; [lia | exact Hg]).
  destruct Hr as [Hv Hd]. split.
  - apply Forall_app. split; [exact Hv|].
    constructor; [unfold validTask; simpl; lia | constructor].
  - apply FOP_app. repeat split; [exact Hd | repeat constructor |].
    intros a b Ha [<-|[]] E. simpl in E.
    destruct (resolved_clear st a Ha E); unfold disjoint; simpl; lia.
Qed.

Lemma addTaskAt_good (st : AppState) :
  goodStore (tasks st) -> goodStore (tasks (addTaskAt empId row type st)).
Proof.
  intros Hg. rewrite addTaskAt_tasks.
  destruct (isTourLike type);
    [|apply mergeAdjacent_good]; now apply placed_good.
Qed.

End Placement.

Lemma placeAll_good (ps : list Placement) (st : AppState) :
  goodStore (tasks st) -> goodStore (tasks (placeAll ps st)).
Proof.
  revert st. induction ps as [|[[e row] k] ps IH]; intros st Hg.
  - exact Hg.
  - simpl. apply IH. now apply addTaskAt_good.
Qed.

(* ================================================================= *)
(** ** Coverage *)

Section Coverage.

Variables (who : string) (k : TaskType) (lbl : string) (r : Z).

Let cov (l : list Task) : Prop := covers l who k lbl r.
Let on (t : Task) : Prop := coveredBy t who k lbl r.

Lemma covers_cons (a : Task) (l : list Task) :
  cov (a :: l) <-> on a \/ cov l.
Proof.
  unfold cov, on, covers. split.
  - intros (t & [<-|Ht] & Hc); [now left | right; now exists t].
  - intros [Hc|(t & Ht & Hc)];
      [exists a; split; [now left | exact Hc]
      |exists t; split; [now right | exact Hc]].
Qed.

Lemma covers_app (l1 l2 : list Task) :
  cov (l1 ++ l2) <-> cov l1 \/ cov l2.
Proof.
  unfold cov, covers. split.
  - intros (t & Ht & Hc). apply in_app_or in Ht.
    destruct Ht; [left | right]; now exists t.
  - intros [(t & Ht & Hc)|(t & Ht & Hc)]; exists t;
      (split; [apply in_or_app; auto | exact Hc]).
Qed.

Lemma covers_perm (l l' : list Task) :
  Permutation l l' -> cov l <-> cov l'.
Proof.
  intros Hp. unfold cov, covers.
  split; intros (t & Ht & Hc); exists t; (split; [|exact Hc]).
  - eapply Permutation_in; eassumption.
  - eapply Permutation_in; [apply Permutation_sym|]; eassumption.
Qed.

Lemma merged_covers (cur t : Task) :
  sameKind cur t = true -> task_empId cur = task_empId t ->
  task_start cur <= task_end cur -> task_start t <= task_end t ->
  on (with_end cur (task_end t)) <-> on cur \/ on t.
Proof.
  intros Hk He Hc Ht. apply sameKind_true in Hk.
  destruct Hk as (Hty & Hlb & Hadj & _).
  unfold on, coveredBy. simpl. rewrite <- He, <- Hty, <- Hlb.
  split.
  - intros (E1 & E2 & E3 & Hr).
    destruct (Z_lt_le_dec r (task_end cur));
      [left | right]; repeat split; auto; lia.
  - intros [(E1 & E2 & E3 & Hr)|(E1 & E2 & E3 & Hr)];
      repeat split; auto; lia.
Qed.

Lemma mergeFrom_covers (arr : list Task) (cur : Task) :
  (forall t, In t (cur :: arr) -> task_empId t = task_empId cur) ->
  Forall (fun t => task_start t <= task_end t) (cur :: arr) ->
  cov (mergeFrom cur arr) <-> cov (cur :: arr).
Proof.
  revert cur. induction arr as [|t rest IH]; intros cur Hown Hv.
  - reflexivity.
  - cbn [mergeFrom].
    inversion Hv as [|? ? Hvc Hv1]; subst.
    inversion Hv1 as [|? ? Hvt Hvr]; subst.
    assert (He : task_empId cur = task_empId t).
    { symmetry. apply Hown. right. now left. }
    destruct (sameKind cur t) eqn:Hk.
    + rewrite IH.
      * rewrite !covers_cons.
        rewrite (merged_covers cur t Hk He Hvc Hvt). tauto.
      * intros u [<-|Hu]; [reflexivity|].
        rewrite with_end_empId. apply Hown. now right; right.
      * constructor; [|exact Hvr]. simpl.
        apply sameKind_true in Hk. lia.
    + rewrite covers_cons, IH, (covers_cons cur); [reflexivity | | exact Hv1].
      intros u Hu. rewrite <- He. apply Hown. now right.
Qed.

Lemma mergeLoop_covers (arr : list Task) (e : string) :
  Forall (fun t => task_empId t = e) arr ->
  Forall (fun t => task_start t <= task_end t) arr ->
  cov (mergeLoop arr) <-> cov arr.
Proof.
  destruct arr as [|c rest]; [reflexivity|]. intros Ho Hv.
  rewrite mergeLoop_cons. apply mergeFrom_covers; [|exact Hv].
  rewrite Forall_forall in Ho. intros u Hu.
  rewrite (Ho u Hu). symmetry. apply Ho. now left.
Qed.

Lemma mergeAdjacent_covers (e : string) (prev : list Task) :
  (forall t, In t prev -> task_empId t = e -> validTask t) ->
  cov (mergeAdjacent e prev) <-> cov prev.
Proof.
  intros Hv. unfold mergeAdjacent.
  rewrite (covers_perm prev _ (before_merge_perm e prev)).
  rewrite !covers_app.
  rewrite (mergeLoop_covers _ e); [reflexivity | apply mine_owner |].
  apply Forall_forall. intros t Ht.
  apply (proj1 (sortByStart_In _ _)) in Ht. apply filter_In in Ht.
  destruct Ht as [Ht He]. apply ofEmp_true in He.
  specialize (Hv t Ht He). unfold validTask in Hv. lia.
Qed.

End Coverage.

(* ================================================================= *)
(** ** Worked examples *)

Section Examples.

Let g (i : string) (s e : Z) : Task := mkTask i "e_john" gallery "Gallery" s e.
Let p (i : string) (s e : Z) : Task := mkTask i "e_john" tour "Public Tour" s e.

Example coverage_drop :
  resolveOverlaps "e_john" 2 3 None [g "t_1" 2 3] = [].
Proof. reflexivity. Qed.

Example left_trim :
  resolveOverlaps "e_john" 3 5 None [g "t_1" 1 4] = [g "t_1" 1 3].
Proof. reflexivity. Qed.

Example right_trim :
  resolveOverlaps "e_john" 1 4 None [g "t_1" 3 5] = [g "t_1" 4 5].
Proof. reflexivity. Qed.

Example split :
  resolveOverlaps "e_john" 2 3 None [g "t_1" 0 6]
  = [g "t_1" 0 2; g "t_1" 3 6].
Proof. reflexivity. Qed.

Example exempt_task_kept :
  resolveOverlaps "e_john" 2 3 (Some "t_1") [g "t_1" 0 6; g "t_2" 2 3]
  = [g "t_1" 0 6].
Proof. reflexivity. Qed.

Example merge_gallery :
  mergeAdjacent "e_john" [g "t_2" 2 3; g "t_1" 1 2] = [g "t_1" 1 3].
Proof. reflexivity. Qed.

Example tour_lock_example :
  mergeAdjacent "e_john" [p "t_1" 1 2; p "t_2" 2 3]
  = [p "t_1" 1 2; p "t_2" 2 3].
Proof. reflexivity. Qed.

Example merge_moves_owner_last :
  map task_id
    (mergeAdjacent "e_john"
       [g "t_1" 0 1; mkTask "t_2" "e_mary" break "Break" 0 1; g "t_3" 4 5])
  = ["t_2"; "t_1"; "t_3"].
Proof. reflexivity. Qed.

Example addTaskAt_merges_back :
  tasks (addTaskAt "e_john" 2 gallery initialState) = tasks initialState.
Proof. reflexivity. Qed.

End Examples.

(* ================================================================= *)
(** ** Properties of the overlap resolver *)

Lemma isExcept_true (exceptId : option string) (t : Task) :
  isExcept exceptId t = true <-> exceptId = Some (task_id t).
Proof.
  destruct exceptId as [x|]; simpl.
  - rewrite String.eqb_eq. split; [now intros -> | now intros [= ->]].
  - split; discriminate.
Qed.

Lemma examined (empId : string) (exceptId : option string) (t : Task) :
  task_empId t = empId -> exceptId <> Some (task_id t) ->
  notOfEmp empId t || isExcept exceptId t = false.
Proof.
  intros He Hx. apply orb_false_iff. split.
  - now apply notOfEmp_false.
  - destruct (isExcept exceptId t) eqn:E; [|reflexivity].
    apply isExcept_true in E. contradiction.
Qed.

(** C1.  [resolveOverlaps empId start end_ exceptId], called with
    [0 <= start < end_ <= TOTAL_ROWS], rewrites the store task by task, in
    store order.  A task of another employee, or the task whose id is
    [exceptId], is kept as it is.  Every other task is classified by its
    relation to the range: kept unchanged when it does not overlap
    ([task_end t <= start] or [task_start t >= end_]); among the
    overlapping ones, removed when [task_start t >= start] and
    [task_end t <= end_]; replaced by the task with the same id, owner,
    kind, label and start and with [end = start] when
    [task_start t < start] and [task_end t <= end_]; replaced by the task
    with the same id, owner, kind, label and end and with [start = end_]
    when [task_start t >= start] and [task_end t > end_]; and replaced by
    these two tasks, in this order, when [task_start t < start] and
    [task_end t > end_].  A task with [start < end] that lies inside the
    range always overlaps it. *)
Theorem resolveOverlaps_classifies
    (empId : string) (start end_ : Z) (exceptId : option string)
    (prev : list Task) :
  0 <= start < end_ /\ end_ <= TOTAL_ROWS ->
  let body := resolveTask empId start end_ exceptId in
  resolveOverlaps empId start end_ exceptId prev = flat_map body prev /\
  forall t,
    let overlapping := start < task_end t /\ task_start t < end_ in
    let left := mkTask (task_id t) (task_empId t) (task_type t)
                       (task_label t) (task_start t) start in
    let right := mkTask (task_id t) (task_empId t) (task_type t)
                        (task_label t) end_ (task_end t) in
    (task_empId t <> empId \/ exceptId = Some (task_id t) -> body t = [t]) /\
    (task_empId t = empId -> exceptId <> Some (task_id t) ->
       (task_end t <= start \/ task_start t >= end_ -> body t = [t]) /\
       (overlapping ->
          task_start t >= start /\ task_end t <= end_ -> body t = []) /\
       (overlapping ->
          task_start t < start /\ task_end t <= end_ -> body t = [left]) /\
       (overlapping ->
          task_start t >= start /\ task_end t > end_ -> body t = [right]) /\
       (task_start t < start /\ task_end t > end_ ->
          body t = [left; right]) /\
       (task_start t < task_end t ->
          task_start t >= start /\ task_end t <= end_ -> overlapping)).
Proof.
  intros Hr body. split; [apply resolveOverlaps_flat_map|].
  intros t overlapping left right. split.
  - intros H. apply resolveTask_skip. apply orb_true_iff.
    destruct H as [H|H]; [left; now apply notOfEmp_true
                         |right; now apply isExcept_true].
  - intros He Hx.
    destruct (resolveTask_cases empId start end_ exceptId t
                (examined empId exceptId t He Hx)) as [Hout Hin].
    unfold overlapsRange in Hout, Hin. unfold overlapping.
    repeat split.
    + intros H. apply Hout. lia.
    + intros Ho. now apply (proj1 (Hin Ho)).
    + intros Ho. now apply (proj1 (proj2 (Hin Ho))).
    + intros Ho. now apply (proj1 (proj2 (proj2 (Hin Ho)))).
    + intros Hs. apply (proj2 (proj2 (proj2 (Hin ltac:(lia)))) Hs).
    + lia.
    + lia.
Qed.

Lemma resolveOverlaps_classifies_witness :
  let t := mkTask "t_1" "e_john" gallery "Gallery" 0 6 in
  (0 <= 2 < 3 /\ 3 <= TOTAL_ROWS) /\
  resolveOverlaps "e_john" 2 3 None [t]
  = [ mkTask "t_1" "e_john" gallery "Gallery" 0 2;
      mkTask "t_1" "e_john" gallery "Gallery" 3 6 ].
Proof.
  intros t.
  assert (H : 0 <= 2 < 3 /\ 3 <= TOTAL_ROWS) by (unfold TOTAL_ROWS; lia).
  destruct (resolveOverlaps_classifies "e_john" 2 3 None [t] H)
    as [Hflat Hcls].
  destruct (Hcls t) as [_ Hmine].
  assert (Hx : None <> Some (task_id t)) by discriminate.
  destruct (Hmine eq_refl Hx) as (_ & _ & _ & _ & Hsplit & _).
  assert (Hs : task_start t < 2 /\ task_end t > 3) by (simpl; lia).
  pose proof (Hsplit Hs) as E. cbv zeta in E.
  split; [exact H|]. rewrite Hflat. cbn [flat_map].
  rewrite E. reflexivity.
Defined.

(** C6.  Running [resolveOverlaps] twice with the same arguments gives
    the store that running it once gives, and running [mergeAdjacent]
    twice for the same employee gives the store that running it once
    gives; both for every store and all arguments, as equalities of the
    task arrays. *)
Theorem resolve_and_merge_idempotent :
  (forall empId start end_ exceptId prev,
     resolveOverlaps empId start end_ exceptId
       (resolveOverlaps empId start end_ exceptId prev)
     = resolveOverlaps empId start end_ exceptId prev) /\
  (forall empId prev,
     mergeAdjacent empId (mergeAdjacent empId prev)
     = mergeAdjacent empId prev).
Proof.
  split; intros.
  - apply resolveOverlaps_idem.
  - apply mergeAdjacent_idem.
Qed.

(** C8.  [resolveOverlaps empId ...] and [mergeAdjacent empId] leave the
    tasks of every other employee as they are: a task whose [empId]
    differs is in the store after the call exactly when it was before,
    with all its fields, and the sub-array of the other employees' tasks is
    the same before and after (same tasks, same multiplicities, same
    order). *)
Theorem other_employees_untouched
    (empId : string) (start end_ : Z) (exceptId : option string)
    (prev : list Task) :
  (filter (notOfEmp empId) (resolveOverlaps empId start end_ exceptId prev)
   = filter (notOfEmp empId) prev /\
   forall t, task_empId t <> empId ->
     (In t (resolveOverlaps empId start end_ exceptId prev) <-> In t prev)) /\
  (filter (notOfEmp empId) (mergeAdjacent empId prev)
   = filter (notOfEmp empId) prev /\
   forall t, task_empId t <> empId ->
     (In t (mergeAdjacent empId prev) <-> In t prev)).
Proof.
  pose proof (resolveOverlaps_others empId start end_ exceptId prev) as H1.
  pose proof (mergeAdjacent_others empId prev) as H2.
  split; (split; [assumption|]); intros t Ht;
    apply notOfEmp_true in Ht.
  - transitivity (In t (filter (notOfEmp empId)
                    (resolveOverlaps empId start end_ exceptId prev))).
    + rewrite filter_In. tauto.
    + rewrite H1, filter_In. tauto.
  - transitivity (In t (filter (notOfEmp empId) (mergeAdjacent empId prev))).
    + rewrite filter_In. tauto.
    + rewrite H2, filter_In. tauto.
Qed.

(* ================================================================= *)
(** ** Properties of the compactor *)

Lemma mergeable_sameKind (last t : Task) :
  mergeable last t <-> sameKind last t = true.
Proof. symmetry. apply sameKind_true. Qed.

Lemma mergeStep_cases (keep : list Task) (t : Task) :
  match lastOpt keep with
  | Some last =>
      (mergeable last t ->
       mergeStep keep t = removelast keep ++ [with_end last (task_end t)]) /\
      (~ mergeable last t -> mergeStep keep t = keep ++ [t])
  | None => mergeStep keep t = keep ++ [t]
  end.
Proof.
  unfold mergeStep. destruct (lastOpt keep) as [last|]; [|reflexivity].
  destruct (sameKind last t) eqn:E; split; intros H; try reflexivity.
  - apply mergeable_sameKind in E. contradiction.
  - apply mergeable_sameKind in H. congruence.
Qed.

Lemma mergeable_fields (last t : Task) :
  mergeable last t <->
  task_type last = task_type t /\ task_label last = task_label t /\
  task_end last = task_start t /\
  task_type t <> tour /\ task_type t <> school_program /\
  task_type last <> tour /\ task_type last <> school_program.
Proof.
  unfold mergeable.
  assert (Hno : forall k, isTourLike k = false <->
                          k <> tour /\ k <> school_program).
  { intros k. destruct k; simpl; split; intros H; try reflexivity;
      try discriminate; try (split; discriminate);
      destruct H as [H1 H2]; contradiction. }
  rewrite !Hno. tauto.
Qed.

(** C4.  [mergeAdjacent empId] takes the employee's tasks, sorts them by
    [start] ascending ([arr] holds exactly the tasks of the store whose
    [empId] is the employee's, as a permutation in order of start, and a
    list already in order is left as it is), and walks [arr] from an
    empty list of kept tasks.  The first task is kept.  After that, with
    [last] the last task kept, a task [t] is merged into [last] exactly
    when both have the same kind and the same label,
    [task_end last = task_start t], and neither kind is [tour] or
    [school_program]: [last] is then replaced, in place, by the task with
    its id, owner, kind, label and start and with [end = task_end t], and
    nothing is appended; in every other case [t] is appended after
    [last], so tasks that are not contiguous or differ in kind are never
    merged.  The store after the call is the other employees' tasks
    followed by the kept list, and the kept list is in order of start. *)
Theorem mergeAdjacent_sorted_walk (empId : string) (prev : list Task) :
  let arr := sortByStart (filter (ofEmp empId) prev) in
  let others := filter (notOfEmp empId) prev in
  (forall t, In t arr <-> In t prev /\ task_empId t = empId) /\
  (forall t, In t others <-> In t prev /\ task_empId t <> empId) /\
  Permutation (filter (ofEmp empId) prev) arr /\
  StronglySorted leStart arr /\
  (forall l, StronglySorted leStart l -> sortByStart l = l) /\
  mergeAdjacent empId prev = others ++ fold_left mergeStep arr [] /\
  (forall t, mergeStep [] t = [t]) /\
  (forall kept last t,
     let same :=
       task_type last = task_type t /\ task_label last = task_label t /\
       task_end last = task_start t /\
       task_type t <> tour /\ task_type t <> school_program /\
       task_type last <> tour /\ task_type last <> school_program in
     let merged := mkTask (task_id last) (task_empId last) (task_type last)
                          (task_label last) (task_start last) (task_end t) in
     (same -> mergeStep (kept ++ [last]) t = kept ++ [merged]) /\
     (~ same -> mergeStep (kept ++ [last]) t = kept ++ [last; t])) /\
  filter (ofEmp empId) (mergeAdjacent empId prev) = fold_left mergeStep arr [] /\
  StronglySorted leStart (filter (ofEmp empId) (mergeAdjacent empId prev)).
Proof.
  intros arr others.
  split.
  { intros t. unfold arr. rewrite sortByStart_In, filter_In, ofEmp_true.
    reflexivity. }
  split.
  { intros t. unfold others. rewrite filter_In, notOfEmp_true.
    reflexivity. }
  split; [apply sortByStart_perm|].
  split; [apply sortByStart_sorted|].
  split; [apply sortByStart_fixed|].
  split; [reflexivity|].
  split; [reflexivity|].
  split; [|split; [apply mergeAdjacent_mine | apply mergeAdjacent_mine_sorted]].
  intros kept last t same merged. rewrite mergeStep_snoc.
  destruct (sameKind last t) eqn:E; split; intros H.
  - reflexivity.
  - exfalso. apply H. apply mergeable_fields, mergeable_sameKind, E.
  - apply mergeable_fields, mergeable_sameKind in H. congruence.
  - now rewrite <- app_assoc.
Qed.

(** C5.  The tour-like kinds are exactly [tour] and [school_program].  A
    task of such a kind is never merged by [mergeAdjacent]: the loop
    appends the task it meets whenever that task or the last kept one is
    tour-like, whatever their kinds, labels and ranges, and the tour-like
    tasks of the store after [mergeAdjacent] are those before, each as
    often as before.  [addTaskAt] runs [mergeAdjacent] only when the kind
    of the new task is not tour-like: for a tour-like kind the resulting
    store is the resolved store followed by the new task. *)
Theorem tour_like_never_merged :
  (forall k, isTourLike k = true <-> k = tour \/ k = school_program) /\
  (forall keep last t,
     lastOpt keep = Some last ->
     isTourLike (task_type last) = true \/ isTourLike (task_type t) = true ->
     mergeStep keep t = keep ++ [t]) /\
  (forall empId prev,
     Permutation (filter tourLikeTask prev)
                 (filter tourLikeTask (mergeAdjacent empId prev))) /\
  (forall empId row k st,
     let next :=
       resolveOverlaps empId row (row + 1) None (tasks st)
       ++ [newTaskAt empId row k st] in
     tasks (addTaskAt empId row k st)
     = if isTourLike k then next else mergeAdjacent empId next).
Proof.
  split; [exact isTourLike_iff|]. split; [|split].
  - intros keep last t Hl Ht. unfold mergeStep. rewrite Hl.
    now rewrite (sameKind_tour last t Ht).
  - intros. apply mergeAdjacent_tours.
  - intros. apply addTaskAt_tasks.
Qed.

(** C10.  [mergeAdjacent empId] preserves coverage on every store in
    which the tasks of [empId] have [start < end] (pairwise disjointness is
    not needed for it): for every employee, row [r], kind [k] and label
    [lbl], some task of that employee with kind [k] and label [lbl] covers
    [r] after the call if and only if one did before. *)
Theorem mergeAdjacent_preserves_coverage
    (empId : string) (prev : list Task) :
  (forall t, In t prev -> task_empId t = empId -> validTask t) ->
  forall who k lbl r,
    covers (mergeAdjacent empId prev) who k lbl r <-> covers prev who k lbl r.
Proof.
  intros Hv who k lbl r. now apply mergeAdjacent_covers.
Qed.

Lemma mergeAdjacent_preserves_coverage_witness :
  let prev := [ mkTask "t_2" "e_john" gallery "Gallery" 2 3;
                mkTask "t_1" "e_john" gallery "Gallery" 1 2;
                mkTask "t_3" "e_mary" break "Break" 1 2 ] in
  (forall t, In t prev -> task_empId t = "e_john" -> validTask t) /\
  (covers (mergeAdjacent "e_john" prev) "e_john" gallery "Gallery" 2
   <-> covers prev "e_john" gallery "Gallery" 2).
Proof.
  intros prev.
  assert (Hv : forall t, In t prev -> task_empId t = "e_john" -> validTask t).
  { intros t Ht _. unfold prev in Ht. simpl in Ht.
    destruct Ht as [<-|[<-|[<-|[]]]]; unfold validTask; simpl; lia. }
  split; [exact Hv|].
  exact (mergeAdjacent_preserves_coverage "e_john" prev Hv
           "e_john" gallery "Gallery" 2).
Defined.

(* ================================================================= *)
(** ** Ids after a split *)

Lemma NoDup_twice {A : Type} (l1 l2 : list A) (x : A) :
  ~ NoDup (l1 ++ x :: x :: l2).
Proof.
  intros H. apply NoDup_remove_2 in H. apply H.
  apply in_or_app. right. now left.
Qed.

Lemma onKey_Delete_tasks (st : AppState) (sel : string) :
  selectedId st = Some sel -> sel <> EmptyString ->
  tasks (onKey "Delete" st)
  = filter (fun t => negb (String.eqb (task_id t) sel)) (tasks st).
Proof.
  intros Hs Hne. unfold onKey. simpl. rewrite Hs.
  destruct sel as [|c rest]; [contradiction | reflexivity].
Qed.

(** C9.  When a task [t] of the employee, not exempt, straddles the range
    ([task_start t < start] and [task_end t > end_]), the store after
    [resolveOverlaps] holds two different tasks that both carry the id of
    [t], so the ids of the store are not unique; and with that id
    selected, the [Delete] key removes every task with that id, both
    fragments at once. *)
Theorem split_shares_id
    (empId : string) (start end_ : Z) (exceptId : option string)
    (prev : list Task) (t : Task) :
  start < end_ ->
  In t prev -> task_empId t = empId -> exceptId <> Some (task_id t) ->
  task_start t < start -> task_end t > end_ ->
  let next := resolveOverlaps empId start end_ exceptId prev in
  let a := with_end t start in
  let b := with_start t end_ in
  In a next /\ In b next /\ a <> b /\
  task_id a = task_id t /\ task_id b = task_id t /\
  ~ NoDup (map task_id next) /\
  forall st,
    tasks st = next -> selectedId st = Some (task_id t) ->
    task_id t <> EmptyString ->
    ~ In a (tasks (onKey "Delete" st)) /\
    ~ In b (tasks (onKey "Delete" st)) /\
    forall u, In u (tasks (onKey "Delete" st)) -> task_id u <> task_id t.
Proof.
  intros Hr Hin He Hx Hs Hen next a b.
  assert (Hbody : resolveTask empId start end_ exceptId t = [a; b]).
  { destruct (resolveTask_cases empId start end_ exceptId t
                (examined empId exceptId t He Hx)) as [_ Hc].
    apply Hc; unfold overlapsRange; lia. }
  destruct (in_split _ _ Hin) as (l1 & l2 & Hprev).
  assert (Hnext : next
                  = flat_map (resolveTask empId start end_ exceptId) l1
                    ++ a :: b
                    :: flat_map (resolveTask empId start end_ exceptId) l2).
  { unfold next. rewrite resolveOverlaps_flat_map, Hprev.
    rewrite flat_map_app. simpl. now rewrite Hbody. }
  assert (Ha : In a next)
    by (rewrite Hnext; apply in_or_app; right; now left).
  assert (Hb : In b next)
    by (rewrite Hnext; apply in_or_app; right; right; now left).
  assert (Hdel : forall st,
             tasks st = next -> selectedId st = Some (task_id t) ->
             task_id t <> EmptyString ->
             forall u, In u (tasks (onKey "Delete" st)) ->
                       task_id u <> task_id t).
  { intros st Ht Hsel Hne u Hu.
    rewrite (onKey_Delete_tasks st (task_id t) Hsel Hne) in Hu.
    apply filter_In in Hu. destruct Hu as [_ Hu].
    now apply negb_true_iff, String.eqb_neq in Hu. }
  split; [exact Ha|]. split; [exact Hb|].
  split; [intros E; apply (f_equal task_start) in E; simpl in E; lia|].
  split; [reflexivity|]. split; [reflexivity|].
  split; [rewrite Hnext, map_app; simpl; apply NoDup_twice|].
  intros st Ht Hsel Hne. pose proof (Hdel st Ht Hsel Hne) as Hd.
  split; [|split].
  - intros Hu. now apply (Hd a Hu).
  - intros Hu. now apply (Hd b Hu).
  - exact Hd.
Qed.

Lemma split_shares_id_witness :
  let t := mkTask "t_1" "e_john" gallery "Gallery" 0 6 in
  let prev := [mkTask "t_0" "e_mary" break "Break" 0 3; t] in
  let next := resolveOverlaps "e_john" 2 3 None prev in
  (2 < 3 /\ In t prev /\ task_empId t = "e_john" /\
   None <> Some (task_id t) /\ task_start t < 2 /\ task_end t > 3) /\
  In (with_end t 2) next /\ In (with_start t 3) next /\
  ~ NoDup (map task_id next) /\
  tasks (onKey "Delete" (mkState 1 [] next (Some "t_1")))
  = [mkTask "t_0" "e_mary" break "Break" 0 3].
Proof.
  intros t prev next.
  assert (H1 : 2 < 3) by lia.
  assert (H2 : In t prev) by (right; now left).
  assert (H3 : task_empId t = "e_john") by reflexivity.
  assert (H4 : None <> Some (task_id t)) by discriminate.
  assert (H5 : task_start t < 2) by (simpl; lia).
  assert (H6 : task_end t > 3) by (simpl; lia).
  pose proof (split_shares_id "e_john" 2 3 None prev t H1 H2 H3 H4 H5 H6)
    as (Ha & Hb & _ & _ & _ & Hd & _).
  repeat split; assumption.
Defined.

(* ================================================================= *)
(** ** Properties of [addTaskAt] *)

(** C2.  Start from a store of the data model: every task has
    [start < end] and the tasks of each employee are pairwise disjoint.
    After any sequence of [addTaskAt] calls, for any employees and kinds
    and for rows that are safe integers (so that [row + 1] is exact; every
    row of the grid is one), any two tasks at different positions of the
    store that belong to the same employee have disjoint ranges, and every
    task of the store has [start < end]. *)
Theorem placeAll_keeps_tasks_disjoint (ps : list Placement) (st : AppState) :
  Forall (fun p => safeInteger (placementRow p)) ps ->
  Forall validTask (tasks st) -> noOverlap (tasks st) ->
  noOverlap (tasks (placeAll ps st)) /\
  Forall validTask (tasks (placeAll ps st)).
Proof.
  intros _ Hv Hd. apply noOverlap_FOP in Hd.
  destruct (placeAll_good ps st (conj Hv Hd)) as [Hv' Hd'].
  split; [now apply noOverlap_FOP | exact Hv'].
Qed.

Lemma placeAll_keeps_tasks_disjoint_witness :
  let ps := [ ("e_john", 2, gallery); ("e_john", 1, tour);
              ("e_mary", 30, break); ("e_john", 0, front) ] in
  Forall (fun p => safeInteger (placementRow p)) ps /\
  Forall validTask (tasks initialState) /\ noOverlap (tasks initialState) /\
  noOverlap (tasks (placeAll ps initialState)) /\
  Forall validTask (tasks (placeAll ps initialState)).
Proof.
  intros ps.
  assert (Hs : Forall (fun p => safeInteger (placementRow p)) ps)
    by (unfold ps;
        repeat (apply Forall_cons;
                [unfold safeInteger, MAX_SAFE_INTEGER, placementRow;
                 simpl; lia|]);
        apply Forall_nil).
  assert (Hv : Forall validTask (tasks initialState))
    by (apply forallb_validTask; reflexivity).
  assert (Hd : noOverlap (tasks initialState))
    by (apply noOverlapb_true; reflexivity).
  split; [exact Hs|]. split; [exact Hv|]. split; [exact Hd|].
  exact (placeAll_keeps_tasks_disjoint ps initialState Hs Hv Hd).
Defined.

Lemma resolveOverlaps_valid (empId : string) (start end_ : Z)
    (exceptId : option string) (prev : list Task) :
  Forall validTask prev ->
  Forall validTask (resolveOverlaps empId start end_ exceptId prev).
Proof.
  intros Hv. rewrite resolveOverlaps_flat_map.
  rewrite Forall_forall in *. intros u Hu.
  apply in_flat_map in Hu. destruct Hu as (t & Ht & Hu).
  now apply (resolveTask_piece empId start end_ exceptId t u (Hv t Ht)).
Qed.

(** C3, as the code has it.  [addTaskAt] checks neither the row nor the
    employee.  On a store whose tasks all have [start < end], for every
    row that is a safe integer (inside [0, TOTAL_ROWS) or not) and every
    employee id (in the roster or not), the call leaves a store in which a
    task of that employee, of the given kind and with its canonical label,
    covers the row; the new id is selected and the roster is left as it
    was. *)
Theorem addTaskAt_always_places
    (empId : string) (row : Z) (type : TaskType) (st : AppState) :
  safeInteger row ->
  Forall validTask (tasks st) ->
  let st' := addTaskAt empId row type st in
  covers (tasks st') empId type (TYPE_LABEL type) row /\
  selectedId st' = Some (task_id (newTaskAt empId row type st)) /\
  employees st' = employees st.
Proof.
  intros _ Hv st'.
  assert (Hnew : covers (resolveOverlaps empId row (row + 1) None (tasks st)
                         ++ [newTaskAt empId row type st])
                   empId type (TYPE_LABEL type) row).
  { exists (newTaskAt empId row type st). split.
    - apply in_or_app. right. now left.
    - unfold coveredBy. simpl. repeat split; lia. }
  split; [|split].
  - unfold st'. rewrite addTaskAt_tasks.
    destruct (isTourLike type); [exact Hnew|].
    apply mergeAdjacent_covers; [|exact Hnew].
    intros t Ht _. apply in_app_or in Ht. destruct Ht as [Ht|[<-|[]]].
    + assert (Hr : Forall validTask
                     (resolveOverlaps empId row (row + 1) None (tasks st)))
        by (apply resolveOverlaps_valid; exact Hv).
      rewrite Forall_forall in Hr. now apply Hr.
    + unfold validTask. simpl. lia.
  - unfold st', addTaskAt. simpl. destruct (isTourLike type); reflexivity.
  - unfold st', addTaskAt. simpl. destruct (isTourLike type); reflexivity.
Qed.

Lemma addTaskAt_always_places_witness :
  safeInteger 99 /\ Forall validTask (tasks initialState) /\
  covers (tasks (addTaskAt "e_ghost" 99 break initialState))
         "e_ghost" break "Break" 99.
Proof.
  assert (Hs : safeInteger 99)
    by (unfold safeInteger, MAX_SAFE_INTEGER; lia).
  assert (Hv : Forall validTask (tasks initialState))
    by (apply forallb_validTask; reflexivity).
  split; [exact Hs|]. split; [exact Hv|].
  exact (proj1 (addTaskAt_always_places "e_ghost" 99 break initialState
                  Hs Hv)).
Defined.

(** C3, as stated, fails on the code: a row outside [0, TOTAL_ROWS) and an
    employee id absent from the roster both lead to a store with one more
    task, not to an unchanged store. *)
Lemma addTaskAt_rejects_nothing :
  ~ (0 <= 99 < TOTAL_ROWS) /\
  tasks (addTaskAt "e_john" 99 tour initialState)
  = tasks initialState ++ [mkTask "t_3" "e_john" tour "Public Tour" 99 100] /\
  tasks (addTaskAt "e_john" 99 tour initialState) <> tasks initialState /\
  ~ In "e_ghost" (map emp_id (employees initialState)) /\
  tasks (addTaskAt "e_ghost" 3 tour initialState)
  = tasks initialState ++ [mkTask "t_3" "e_ghost" tour "Public Tour" 3 4] /\
  tasks (addTaskAt "e_ghost" 3 tour initialState) <> tasks initialState.
Proof.
  split; [unfold TOTAL_ROWS; lia|].
  split; [reflexivity|]. split; [discriminate|].
  split; [simpl; intros [H|[H|[H|[]]]]; discriminate|].
  split; [reflexivity | discriminate].
Qed.

(* ================================================================= *)
(** ** Numbers as strings *)

Section NumberStrings.

Lemma to_int_not_nil (n : Z) :
  Z.to_int n <> Pos Nil /\ Z.to_int n <> Neg Nil.
Proof.
  destruct n as [|p|p]; simpl; split; try discriminate;
    intros [= H]; now apply DecimalPos.Unsigned.to_uint_nonnil in H.
Qed.

Lemma int_of_numToString (n : Z) :
  NilZero.int_of_string (numToString n) = Some (Z.to_int n).
Proof.
  unfold numToString. destruct (to_int_not_nil n) as [H1 H2].
  now apply NilZero.isi.
Qed.

Lemma numToString_not_empty (n : Z) : numToString n <> EmptyString.
Proof.
  intros E. pose proof (int_of_numToString n) as H.
  rewrite E in H. discriminate.
Qed.

Lemma Number_numToString (n : Z) : Number (numToString n) = Some n.
Proof.
  unfold Number. pose proof (numToString_not_empty n) as Hne.
  destruct (numToString n) eqn:E; [contradiction|].
  rewrite <- E, int_of_numToString. simpl. now rewrite DecimalZ.of_to.
Qed.

Lemma numToString_inj (n m : Z) : numToString n = numToString m -> n = m.
Proof.
  intros E. pose proof (Number_numToString n) as Hn.
  rewrite E, Number_numToString in Hn. now injection Hn.
Qed.

End NumberStrings.

Section TimeStrings.

Lemma splitColon_plain (s : string) :
  hasColon s = false -> splitColon s = [s].
Proof.
  induction s as [|c r IH]; simpl; [reflexivity|].
  intros H. apply orb_false_iff in H. destruct H as [Hc Hr].
  rewrite Hc, (IH Hr). reflexivity.
Qed.

Lemma splitColon_join (h m : string) :
  hasColon h = false -> hasColon m = false ->
  splitColon (h ++ ":" ++ m)%string = [h; m].
Proof.
  intros Hh Hm. induction h as [|c r IH]; simpl.
  - now rewrite (splitColon_plain m Hm).
  - simpl in Hh. apply orb_false_iff in Hh. destruct Hh as [Hc Hr].
    rewrite Hc. simpl in IH. rewrite (IH Hr). reflexivity.
Qed.

Lemma digit_not_colon (a : ascii) (d : option uint) (d' : uint) :
  uint_of_char a d = Some d' ->
  Ascii.eqb a ":"%char = false /\ Ascii.eqb a "-"%char = false /\
  exists d0, d = Some d0.
Proof.
  destruct d as [d0|]; [|discriminate]. intros H.
  apply uint_of_char_spec in H.
  repeat destruct H as [H|H]; destruct H as [-> _];
    (split; [reflexivity | split; [reflexivity | now exists d0]]).
Qed.

Lemma digits_noColon (s : string) (d : uint) :
  NilEmpty.uint_of_string s = Some d -> hasColon s = false.
Proof.
  revert d. induction s as [|a r IH]; intros d H; simpl; [reflexivity|].
  simpl in H. destruct (digit_not_colon _ _ _ H) as (Hc & _ & d0 & Hd0).
  rewrite Hc. simpl. now apply (IH d0).
Qed.

Lemma Number_noColon (s : string) (n : Z) :
  Number s = Some n -> hasColon s = false.
Proof.
  destruct s as [|a r]; [reflexivity|]. unfold Number, NilZero.int_of_string.
  destruct (Ascii.eqb_spec a "-"%char) as [->|Hne].
  - destruct r as [|b r']; [simpl; discriminate|].
    simpl NilZero.uint_of_string.
    destruct (uint_of_char b (NilEmpty.uint_of_string r')) as [d|] eqn:E;
      [|simpl; discriminate].
    intros _. change (hasColon (String b r') = false).
    now apply (digits_noColon (String b r') d).
  - simpl NilZero.uint_of_string.
    destruct (uint_of_char a (NilEmpty.uint_of_string r)) as [d|] eqn:E;
      [|simpl; discriminate].
    intros _. now apply (digits_noColon (String a r) d).
Qed.

(** [toRow] on two numerals joined by a colon. *)
Lemma toRow_join (h m : string) (hv mv : Z) :
  Number h = Some hv -> Number m = Some mv ->
  toRow (h ++ ":" ++ m)%string = Some (rowOfMinutes (hv * 60 + mv)).
Proof.
  intros Hh Hm. unfold toRow.
  rewrite (splitColon_join h m (Number_noColon h hv Hh)
             (Number_noColon m mv Hm)).
  unfold nthNumber. simpl. now rewrite Hh, Hm.
Qed.

Lemma of_uint_lead0 (k : nat) (d : uint) :
  Z.of_uint (lead0 k d) = Z.of_uint d.
Proof. induction k as [|k IH]; [reflexivity | exact IH]. Qed.

Lemma digits_zeros (k : nat) (d : uint) :
  NilEmpty.uint_of_string (zeros k ++ NilEmpty.string_of_uint d)%string
  = Some (lead0 k d).
Proof.
  induction k as [|k IH]; simpl.
  - apply NilEmpty.usu.
  - now rewrite IH.
Qed.

Lemma Number_digits (s : string) (d : uint) :
  s <> EmptyString -> NilEmpty.uint_of_string s = Some d ->
  Number s = Some (Z.of_uint d).
Proof.
  destruct s as [|a r]; [contradiction|]. intros _ H.
  unfold Number, NilZero.int_of_string.
  simpl in H. destruct (digit_not_colon _ _ _ H) as (_ & Hm & _).
  rewrite Hm. simpl NilZero.uint_of_string.
  change (NilEmpty.uint_of_string (String a r)) with
    (uint_of_char a (NilEmpty.uint_of_string r)).
  now rewrite H.
Qed.

Lemma string_of_uint_not_empty (d : uint) :
  d <> Nil -> NilEmpty.string_of_uint d <> EmptyString.
Proof. destruct d; [contradiction | discriminate ..]. Qed.

Lemma append_not_empty (a b : string) :
  b <> EmptyString -> (a ++ b)%string <> EmptyString.
Proof. destruct a; [trivial | discriminate]. Qed.

Lemma Number_padStart0 (n : Z) :
  Number (padStart0 2 (numToString n)) = Some n.
Proof.
  unfold padStart0.
  destruct n as [|p|p].
  - reflexivity.
  - unfold numToString. simpl Z.to_int. simpl NilZero.string_of_int.
    pose proof (DecimalPos.Unsigned.to_uint_nonnil p) as Hp.
    assert (E : NilZero.string_of_uint (Pos.to_uint p)
                = NilEmpty.string_of_uint (Pos.to_uint p))
      by (destruct (Pos.to_uint p); [contradiction | reflexivity ..]).
    rewrite E.
    set (k := (2 - String.length (NilEmpty.string_of_uint (Pos.to_uint p)))%nat).
    rewrite (Number_digits _ (lead0 k (Pos.to_uint p))).
    + rewrite of_uint_lead0.
      change (Z.of_uint (Pos.to_uint p)) with (Z.of_int (Z.to_int (Z.pos p))).
      now rewrite DecimalZ.of_to.
    + apply append_not_empty. now apply string_of_uint_not_empty.
    + apply digits_zeros.
  - assert (E : padStart0 2 (numToString (Z.neg p)) = numToString (Z.neg p)).
    { unfold padStart0, numToString. simpl Z.to_int.
      simpl NilZero.string_of_int.
      pose proof (DecimalPos.Unsigned.to_uint_nonnil p) as Hp.
      destruct (Pos.to_uint p); [contradiction | reflexivity ..]. }
    unfold padStart0 in E. rewrite E. apply Number_numToString.
Qed.

End TimeStrings.

(* ================================================================= *)
(** ** Further properties of the time helpers *)

(** X1.  On the strings the model reads, those whose parts before and
    after the first colon are plain decimal numerals (optionally negated,
    or empty), a number yielded by [toRow] lies between 0 and
    [TOTAL_ROWS], both included. *)
Theorem toRow_in_range (hhmm : string) (r : Z) :
  toRow hhmm = Some r -> 0 <= r <= TOTAL_ROWS.
Proof.
  unfold toRow.
  destruct (nthNumber (splitColon hhmm) 0) as [h|]; [|discriminate].
  destruct (nthNumber (splitColon hhmm) 1) as [m|]; [|discriminate].
  intros [= <-]. unfold TOTAL_ROWS. lia.
Qed.

Lemma toRow_in_range_witness :
  toRow "23:59" = Some 26 /\ 0 <= 26 <= TOTAL_ROWS.
Proof.
  assert (H : toRow "23:59" = Some 26) by reflexivity.
  split; [exact H | exact (toRow_in_range "23:59" 26 H)].
Defined.

(** X2.  A string without a colon has no minutes part: [toRow] yields
    [NaN] on it, the empty string included. *)
Theorem toRow_without_colon (s : string) :
  hasColon s = false -> toRow s = None.
Proof.
  intros H. unfold toRow. rewrite (splitColon_plain s H).
  unfold nthNumber. simpl. now destruct (Number s).
Qed.

Lemma toRow_without_colon_witness :
  hasColon "0930" = false /\ toRow "0930" = None.
Proof.
  assert (H : hasColon "0930" = false) by reflexivity.
  split; [exact H | exact (toRow_without_colon "0930" H)].
Defined.

(** X3.  On an hour [h] and a minute [m] written as decimal numerals
    padded to two digits and joined by a colon, with [0 <= h] and
    [0 <= m < 60], [toRow] yields the 15-minute slot that holds the time:
    row 0 for a time before 09:30, row [TOTAL_ROWS] from 16:00 on, and in
    between the row [r] with [570 + 15 r <= 60 h + m < 570 + 15 (r + 1)]. *)
Theorem toRow_slot_of_time (h m : Z) :
  0 <= h -> 0 <= m < 60 ->
  let t := h * 60 + m in
  exists r,
    toRow (padStart0 2 (numToString h) ++ ":" ++ padStart0 2 (numToString m))
    = Some r /\
    (t < DAY_START_MIN -> r = 0) /\
    (DAY_START_MIN + 15 * TOTAL_ROWS <= t -> r = TOTAL_ROWS) /\
    (DAY_START_MIN <= t < DAY_START_MIN + 15 * TOTAL_ROWS ->
     0 <= r < TOTAL_ROWS /\
     DAY_START_MIN + 15 * r <= t < DAY_START_MIN + 15 * (r + 1)).
Proof.
  intros Hh Hm t. exists (rowOfMinutes t). split.
  - apply toRow_join; apply Number_padStart0.
  - unfold rowOfMinutes, DAY_START_MIN, TOTAL_ROWS.
    repeat split; intros; Z.to_euclidean_division_equations; lia.
Qed.

Lemma toRow_slot_of_time_witness :
  0 <= 11 /\ 0 <= 7 < 60 /\ toRow "11:07" = Some 6.
Proof.
  assert (Hh : 0 <= 11) by lia. assert (Hm : 0 <= 7 < 60) by lia.
  split; [exact Hh|]. split; [exact Hm|].
  destruct (toRow_slot_of_time 11 7 Hh Hm) as (r & Hr & _ & _ & Hin).
  change (toRow "11:07" = Some r) in Hr. rewrite Hr. f_equal.
  unfold DAY_START_MIN, TOTAL_ROWS in Hin. lia.
Defined.

(** X4.  For every row [r] of [exactRow] (up to [2^48] in absolute
    value), inside the grid or not, [toRow] reads [rowToTime r] back as
    [r] clamped into [0, TOTAL_ROWS]. *)
Theorem toRow_rowToTime_clamped (r : Z) :
  exactRow r ->
  toRow (rowToTime r) = Some (Z.max 0 (Z.min TOTAL_ROWS r)).
Proof.
  intros _. unfold rowToTime.
  rewrite (toRow_join _ _ _ _ (Number_padStart0 _) (Number_padStart0 _)).
  f_equal. unfold rowOfMinutes, DAY_START_MIN, TOTAL_ROWS.
  Z.to_euclidean_division_equations. lia.
Qed.

Lemma toRow_rowToTime_clamped_witness :
  exactRow (-50) /\ rowToTime (-50) = "-3:00" /\
  toRow (rowToTime (-50)) = Some 0.
Proof.
  assert (H : exactRow (-50)) by (unfold exactRow; lia).
  split; [exact H|]. split; [reflexivity|].
  exact (toRow_rowToTime_clamped (-50) H).
Defined.

(* ================================================================= *)
(** ** Ids *)

Section Ids.

Lemma uid_idOf (st : AppState) : fst (uid st) = idOf (seq st + 1).
Proof. reflexivity. Qed.

Lemma idOf_inj (n m : Z) : idOf n = idOf m -> n = m.
Proof. unfold idOf. simpl. intros [= E]. now apply numToString_inj. Qed.

Lemma idOf_not_empty (n : Z) : idOf n <> EmptyString.
Proof. discriminate. Qed.

Lemma resolveOverlaps_ids (empId : string) (start end_ : Z)
    (exceptId : option string) (prev : list Task) (u : Task) :
  In u (resolveOverlaps empId start end_ exceptId prev) ->
  exists t, In t prev /\ task_id u = task_id t.
Proof.
  rewrite resolveOverlaps_flat_map. intros Hu.
  apply in_flat_map in Hu. destruct Hu as (t & Ht & Hu).
  exists t. split; [exact Ht|].
  now destruct (resolveTask_same_owner _ _ _ _ t u Hu) as (_ & Hi & _).
Qed.

Lemma mergeLoop_origin (arr : list Task) (u : Task) :
  In u (mergeLoop arr) -> exists t e, In t arr /\ u = with_end t e.
Proof.
  destruct arr as [|c rest]; [intros []|].
  rewrite mergeLoop_cons. apply mergeFrom_origin.
Qed.

Lemma mergeAdjacent_origin (empId : string) (prev : list Task) (u : Task) :
  In u (mergeAdjacent empId prev) ->
  exists t e, In t prev /\ u = with_end t e.
Proof.
  unfold mergeAdjacent. intros Hu. apply in_app_or in Hu.
  destruct Hu as [Hu|Hu].
  - apply filter_In in Hu. exists u, (task_end u).
    split; [tauto | now rewrite with_end_same].
  - destruct (mergeLoop_origin _ u Hu) as (t & e & Ht & ->).
    apply (proj1 (sortByStart_In _ _)) in Ht. apply filter_In in Ht.
    exists t, e. tauto.
Qed.

End Ids.

(** X5.  As long as the counter is a safe integer, [uid] never gives
    the same id for two values of the counter: equal ids mean equal
    counters, two calls in a row give two different ids when the counter
    is still a safe integer after the first, and an id is never the empty
    string. *)
Theorem uid_ids_distinct (st1 st2 : AppState) :
  safeInteger (seq st1) -> safeInteger (seq st2) ->
  (fst (uid st1) = fst (uid st2) -> seq st1 = seq st2) /\
  (safeInteger (seq st1 + 1) ->
   fst (uid st1) <> fst (uid (snd (uid st1)))) /\
  fst (uid st1) <> EmptyString.
Proof.
  intros _ _. rewrite !uid_idOf. repeat split.
  - intros E. apply idOf_inj in E. lia.
  - intros _ E. apply idOf_inj in E. simpl in E. lia.
  - apply idOf_not_empty.
Qed.

Lemma uid_ids_distinct_witness :
  let st2 := mkState 7 [] [] None in
  safeInteger (seq initialState) /\ safeInteger (seq st2) /\
  fst (uid initialState) = "t_3" /\ fst (uid st2) = "t_8" /\
  fst (uid initialState) <> fst (uid (snd (uid initialState))).
Proof.
  intros st2.
  assert (H1 : safeInteger (seq initialState))
    by (unfold safeInteger, MAX_SAFE_INTEGER; simpl; lia).
  assert (H2 : safeInteger (seq st2))
    by (unfold safeInteger, MAX_SAFE_INTEGER; simpl; lia).
  assert (H3 : safeInteger (seq initialState + 1))
    by (unfold safeInteger, MAX_SAFE_INTEGER; simpl; lia).
  split; [exact H1|]. split; [exact H2|].
  split; [reflexivity|]. split; [reflexivity|].
  exact (proj1 (proj2 (uid_ids_distinct initialState st2 H1 H2)) H3).
Defined.

Lemma addTaskAt_fresh
    (empId : string) (row : Z) (type : TaskType) (st : AppState) :
  issued st ->
  let st' := addTaskAt empId row type st in
  seq st' = seq st + 1 /\
  selectedId st' = Some (idOf (seq st + 1)) /\
  (forall t, In t (tasks st) -> task_id t <> idOf (seq st + 1)) /\
  issued st'.
Proof.
  intros Hi st'.
  assert (Hseq : seq st' = seq st + 1)
    by (unfold st', addTaskAt; simpl; now destruct (isTourLike type)).
  assert (Hsel : selectedId st' = Some (idOf (seq st + 1)))
    by (unfold st', addTaskAt; simpl; now destruct (isTourLike type)).
  split; [exact Hseq|]. split; [exact Hsel|]. split.
  - intros t Ht E. destruct (Hi t Ht) as (n & Hn & En).
    rewrite En in E. apply idOf_inj in E. lia.
  - assert (Hnext : forall u,
               In u (resolveOverlaps empId row (row + 1) None (tasks st)
                     ++ [newTaskAt empId row type st]) ->
               exists n, n <= seq st + 1 /\ task_id u = idOf n).
    { intros u Hu. apply in_app_or in Hu. destruct Hu as [Hu|[<-|[]]].
      - destruct (resolveOverlaps_ids _ _ _ _ _ u Hu) as (t & Ht & ->).
        destruct (Hi t Ht) as (n & Hn & En). exists n. split; [lia|exact En].
      - exists (seq st + 1). split; [lia | reflexivity]. }
    intros u Hu. rewrite Hseq. unfold st' in Hu.
    rewrite addTaskAt_tasks in Hu.
    destruct (isTourLike type); [now apply Hnext|].
    destruct (mergeAdjacent_origin _ _ u Hu) as (t & e & Ht & ->).
    destruct (Hnext t Ht) as (n & Hn & En).
    exists n. split; [exact Hn | exact En].
Qed.

(** X6.  In a state whose counter is a safe integer and where every id
    of the store came out of [uid], [addTaskAt] selects an id that no task
    of the store had before the call, and every id of the store after the
    call again came out of [uid]; the counter goes up by one. *)
Theorem addTaskAt_issues_fresh_id
    (empId : string) (row : Z) (type : TaskType) (st : AppState) :
  safeInteger (seq st) ->
  issued st ->
  let st' := addTaskAt empId row type st in
  seq st' = seq st + 1 /\
  selectedId st' = Some (idOf (seq st + 1)) /\
  (forall t, In t (tasks st) -> task_id t <> idOf (seq st + 1)) /\
  issued st'.
Proof. intros _. apply addTaskAt_fresh. Qed.

Lemma addTaskAt_issues_fresh_id_witness :
  safeInteger (seq initialState) /\ issued initialState /\
  selectedId (addTaskAt "e_mary" 4 break initialState) = Some "t_3" /\
  issued (addTaskAt "e_mary" 4 break initialState).
Proof.
  assert (Hs : safeInteger (seq initialState))
    by (unfold safeInteger, MAX_SAFE_INTEGER; simpl; lia).
  assert (Hi : issued initialState).
  { intros t [<-|[<-|[]]]; [exists 1 | exists 2];
      (split; [simpl; lia | reflexivity]). }
  destruct (addTaskAt_issues_fresh_id "e_mary" 4 break initialState Hs Hi)
    as (_ & Hsel & _ & Hi').
  split; [exact Hs|]. split; [exact Hi|]. split; [exact Hsel | exact Hi'].
Defined.

(* ================================================================= *)
(** ** Further properties of the keyboard handler *)

Lemma filter_snoc_out {A : Type} (f : A -> bool) (l : list A) (x : A) :
  f x = false -> filter f (l ++ [x]) = filter f l.
Proof.
  intros H. rewrite filter_app. simpl. rewrite H. apply app_nil_r.
Qed.

Lemma onKey_Delete_selected (st : AppState) (sel : string) :
  selectedId st = Some sel -> sel <> EmptyString ->
  selectedId (onKey "Delete" st) = None.
Proof.
  intros Hs Hne. unfold onKey. simpl. rewrite Hs.
  destruct sel as [|c rest]; [contradiction | reflexivity].
Qed.

(** X7.  A key press never adds a task, never removes a task whose id is
    not the selected one, and leaves the id counter and the roster alone;
    it either clears the selection or changes nothing at all. *)
Theorem onKey_spares_unselected (key : string) (st : AppState) :
  seq (onKey key st) = seq st /\
  employees (onKey key st) = employees st /\
  (forall u, In u (tasks (onKey key st)) -> In u (tasks st)) /\
  (forall u, In u (tasks st) -> selectedId st <> Some (task_id u) ->
             In u (tasks (onKey key st))) /\
  (selectedId (onKey key st) = None \/ onKey key st = st).
Proof.
  unfold onKey.
  destruct (String.eqb key "Delete" || String.eqb key "Backspace");
    destruct (String.eqb key "Escape");
    destruct (selectedId st) as [[|c sel]|] eqn:Es; simpl;
    repeat split; auto;
    try (intros u Hu; apply filter_In in Hu; tauto);
    try (intros u Hu Hne; apply filter_In; split; [exact Hu|];
         apply negb_true_iff, String.eqb_neq; congruence).
Qed.

(** X8.  Pressing the same key twice in a row leaves the state that
    pressing it once leaves. *)
Theorem onKey_twice (key : string) (st : AppState) :
  onKey key (onKey key st) = onKey key st.
Proof.
  unfold onKey.
  destruct (String.eqb key "Delete" || String.eqb key "Backspace");
    destruct (String.eqb key "Escape");
    destruct (selectedId st) as [[|c sel]|] eqn:Es; simpl;
    rewrite ?Es; reflexivity.
Qed.

(** X9.  In a state whose counter is a safe integer and where every id
    of the store came out of [uid], placing a task of a tour-like kind on
    a row that is a safe integer and pressing [Delete] right away removes
    the new task and nothing else: the store is the one left by
    [resolveOverlaps] on the cell, so what the placement trimmed, split
    or dropped is not restored; the selection is cleared. *)
Theorem place_tour_then_delete
    (empId : string) (row : Z) (type : TaskType) (st : AppState) :
  safeInteger row -> safeInteger (seq st) ->
  issued st -> isTourLike type = true ->
  let st' := onKey "Delete" (addTaskAt empId row type st) in
  tasks st' = resolveOverlaps empId row (row + 1) None (tasks st) /\
  selectedId st' = None.
Proof.
  intros _ _ Hi Ht st'.
  destruct (addTaskAt_fresh empId row type st Hi)
    as (_ & Hsel & Hfresh & _).
  split.
  - unfold st'.
    rewrite (onKey_Delete_tasks _ _ Hsel (idOf_not_empty _)).
    rewrite addTaskAt_tasks, Ht.
    rewrite filter_snoc_out
      by (cbv beta; apply negb_false_iff, String.eqb_eq; reflexivity).
    apply filter_all.
    intros u Hu. apply negb_true_iff, String.eqb_neq.
    destruct (resolveOverlaps_ids _ _ _ _ _ u Hu) as (t & Hin & ->).
    now apply Hfresh.
  - apply (onKey_Delete_selected _ _ Hsel (idOf_not_empty _)).
Qed.

Lemma place_tour_then_delete_witness :
  (safeInteger 1 /\ safeInteger (seq initialState) /\
   issued initialState /\ isTourLike tour = true) /\
  tasks (onKey "Delete" (addTaskAt "e_john" 1 tour initialState))
  = [ mkTask "t_1" "e_john" front "Front Desk" 0 1;
      mkTask "t_2" "e_john" gallery "Gallery" 2 3 ].
Proof.
  assert (Hr : safeInteger 1) by (unfold safeInteger, MAX_SAFE_INTEGER; lia).
  assert (Hs : safeInteger (seq initialState))
    by (unfold safeInteger, MAX_SAFE_INTEGER; simpl; lia).
  assert (Hi : issued initialState).
  { intros t [<-|[<-|[]]]; [exists 1 | exists 2];
      (split; [simpl; lia | reflexivity]). }
  split; [exact (conj Hr (conj Hs (conj Hi eq_refl)))|].
  exact (proj1 (place_tour_then_delete "e_john" 1 tour initialState
                  Hr Hs Hi eq_refl)).
Defined.

(* ================================================================= *)
(** ** Further properties of the overlap resolver *)

(** Splits the comparisons of the goal, dropping impossible branches. *)
Ltac split_tests :=
  repeat first
    [ progress unfold cutTask
    | progress cbn [andb orb negb flat_map app
                    with_end with_start task_start task_end]
    | rewrite Z.geb_leb
    | rewrite Z.gtb_ltb
    | match goal with
      | |- context [?x <=? ?y] =>
          destruct (Z.leb_spec x y); try (exfalso; lia)
      | |- context [?x <? ?y] =>
          destruct (Z.ltb_spec x y); try (exfalso; lia)
      end ].

Section ResolverMore.

Variables (empId : string) (start end_ : Z) (exceptId : option string).

Let body := resolveTask empId start end_ exceptId.

Lemma resolveTask_cut (t : Task) :
  body t = if notOfEmp empId t || isExcept exceptId t then [t]
           else cutTask start end_ t.
Proof. reflexivity. Qed.

Lemma covers_nil (who : string) (k : TaskType) (lbl : string) (r : Z) :
  ~ covers [] who k lbl r.
Proof. intros (t & [] & _). Qed.

Lemma cutTask_covers (who : string) (k : TaskType) (lbl : string) (r : Z)
    (t : Task) :
  r < start \/ end_ <= r ->
  covers (cutTask start end_ t) who k lbl r <-> coveredBy t who k lbl r.
Proof.
  intros Hr. unfold cutTask. split_tests;
    rewrite ?covers_cons; unfold coveredBy; cbn [with_end with_start
      task_start task_end task_empId task_type task_label];
    pose proof (covers_nil who k lbl r); intuition lia.
Qed.

Lemma resolveTask_covers (who : string) (k : TaskType) (lbl : string)
    (r : Z) (t : Task) :
  r < start \/ end_ <= r \/ who <> empId ->
  covers (body t) who k lbl r <-> coveredBy t who k lbl r.
Proof.
  intros Hr. rewrite resolveTask_cut.
  pose proof (covers_nil who k lbl r) as Hnil.
  destruct (notOfEmp empId t || isExcept exceptId t) eqn:Hg.
  - rewrite covers_cons. tauto.
  - destruct Hr as [Hr|[Hr|Hr]];
      [apply cutTask_covers; auto | apply cutTask_covers; auto |].
    assert (He : task_empId t = empId).
    { apply orb_false_iff in Hg. now apply notOfEmp_false. }
    split.
    + intros (u & Hu & Hc & _).
      assert (Hin : In u (body t)) by (rewrite resolveTask_cut, Hg; exact Hu).
      destruct (resolveTask_same_owner _ _ _ _ t u Hin) as (Ho & _).
      congruence.
    + intros (Hc & _). congruence.
Qed.

Lemma resolveOverlaps_covers (who : string) (k : TaskType) (lbl : string)
    (r : Z) (prev : list Task) :
  r < start \/ end_ <= r \/ who <> empId ->
  covers (resolveOverlaps empId start end_ exceptId prev) who k lbl r
  <-> covers prev who k lbl r.
Proof.
  intros Hr. rewrite resolveOverlaps_flat_map.
  induction prev as [|t rest IH]; simpl; [reflexivity|].
  pose proof (resolveTask_covers who k lbl r t Hr) as Ht.
  unfold body in Ht. rewrite covers_app, covers_cons, IH, Ht. reflexivity.
Qed.

Lemma resolveOverlaps_clear (prev : list Task) (u : Task) :
  In u (resolveOverlaps empId start end_ exceptId prev) ->
  task_empId u = empId -> exceptId <> Some (task_id u) ->
  task_end u <= start \/ task_start u >= end_.
Proof.
  rewrite resolveOverlaps_flat_map. intros Hu He Hx.
  apply in_flat_map in Hu. destruct Hu as (t & _ & Hu).
  destruct (resolveTask_same_owner _ _ _ _ t u Hu) as (Ho & Hi & _).
  apply (resolveTask_clear empId start end_ exceptId t u); [|exact Hu].
  apply examined; congruence.
Qed.

End ResolverMore.

Section ResolverCompose.

Lemma cutTask_compose (a b c : Z) (t : Task) :
  validTask t -> a <= b -> b <= c ->
  flat_map (cutTask b c) (cutTask a b t) = cutTask a c t.
Proof.
  unfold validTask. intros Hv Hab Hbc.
  split_tests; try reflexivity;
    first [ assert (b = c) by lia; subst; reflexivity
          | assert (a = b) by lia; subst; reflexivity ].
Qed.

Lemma flat_map_same {A B : Type} (f g : A -> list B) (l : list A) :
  (forall x, In x l -> f x = g x) -> flat_map f l = flat_map g l.
Proof.
  induction l as [|x r IH]; intros H; simpl; [reflexivity|].
  rewrite (H x (or_introl eq_refl)). f_equal.
  apply IH. intros y Hy. apply H. now right.
Qed.

Lemma flat_map_twice {A : Type} (f g : A -> list A) (l : list A) :
  flat_map g (flat_map f l) = flat_map (fun x => flat_map g (f x)) l.
Proof.
  induction l as [|x r IH]; simpl; [reflexivity|].
  now rewrite flat_map_app, IH.
Qed.

Lemma skip_of_piece (empId : string) (start end_ : Z)
    (exceptId : option string) (t u : Task) :
  In u (resolveTask empId start end_ exceptId t) ->
  notOfEmp empId u || isExcept exceptId u
  = notOfEmp empId t || isExcept exceptId t.
Proof.
  intros Hu.
  destruct (resolveTask_same_owner _ _ _ _ t u Hu) as (Ho & Hi & _).
  unfold notOfEmp, isExcept. rewrite Ho.
  destruct exceptId; [now rewrite Hi | reflexivity].
Qed.

Lemma resolveTask_compose (empId : string) (a b c : Z)
    (exceptId : option string) (t : Task) :
  validTask t -> a <= b -> b <= c ->
  flat_map (resolveTask empId b c exceptId) (resolveTask empId a b exceptId t)
  = resolveTask empId a c exceptId t.
Proof.
  intros Hv Hab Hbc.
  rewrite (flat_map_same _ (fun u =>
             if notOfEmp empId t || isExcept exceptId t then [u]
             else cutTask b c u)).
  - rewrite !resolveTask_cut.
    destruct (notOfEmp empId t || isExcept exceptId t); [reflexivity|].
    now apply cutTask_compose.
  - intros u Hu. rewrite resolveTask_cut.
    now rewrite (skip_of_piece _ _ _ _ t u Hu).
Qed.

Lemma resolveOverlaps_compose (empId : string) (a b c : Z)
    (exceptId : option string) (prev : list Task) :
  Forall validTask prev -> a <= b -> b <= c ->
  resolveOverlaps empId b c exceptId (resolveOverlaps empId a b exceptId prev)
  = resolveOverlaps empId a c exceptId prev.
Proof.
  intros Hv Hab Hbc. rewrite !resolveOverlaps_flat_map, flat_map_twice.
  apply flat_map_same. intros t Ht. rewrite Forall_forall in Hv.
  apply resolveTask_compose; auto.
Qed.

Lemma resolveOverlaps_perm (empId : string) (start end_ : Z)
    (exceptId : option string) (l l' : list Task) :
  Permutation l l' ->
  Permutation (resolveOverlaps empId start end_ exceptId l)
              (resolveOverlaps empId start end_ exceptId l').
Proof.
  rewrite !resolveOverlaps_flat_map.
  induction 1 as [|x l l' _ IH|x y l|l l' l'' _ IH1 _ IH2]; simpl.
  - apply perm_nil.
  - now apply Permutation_app_head.
  - rewrite !app_assoc. apply Permutation_app_tail, Permutation_app_comm.
  - eapply perm_trans; eassumption.
Qed.

Lemma cutTask_length (start end_ : Z) (t : Task) :
  (List.length (cutTask start end_ t) <= 2)%nat /\
  (List.length (cutTask start end_ t) = 2%nat ->
   task_start t < start /\ end_ < task_end t).
Proof.
  split_tests; simpl; split; intros; try lia; discriminate.
Qed.

Lemma resolveTask_length (empId : string) (start end_ : Z)
    (exceptId : option string) (t : Task) :
  (List.length (resolveTask empId start end_ exceptId t) <= 2)%nat /\
  ((List.length (resolveTask empId start end_ exceptId t) <= 1)%nat \/
   task_empId t = empId /\ task_start t < start /\ end_ < task_end t).
Proof.
  rewrite resolveTask_cut.
  destruct (notOfEmp empId t || isExcept exceptId t) eqn:Hg.
  - simpl. split; [lia | left; lia].
  - destruct (cutTask_length start end_ t) as [H2 Hs]. split; [exact H2|].
    assert (Hl : (List.length (cutTask start end_ t) <= 1
                  \/ List.length (cutTask start end_ t) = 2)%nat) by lia.
    destruct Hl as [Hl|Hl]; [now left | right].
    split; [|now apply Hs].
    apply orb_false_iff in Hg. now apply notOfEmp_false.
Qed.

Lemma resolve_length_plain (empId : string) (start end_ : Z)
    (exceptId : option string) (l : list Task) :
  (forall t, In t l ->
     (List.length (resolveTask empId start end_ exceptId t) <= 1)%nat) ->
  (List.length (flat_map (resolveTask empId start end_ exceptId) l)
   <= List.length l)%nat.
Proof.
  induction l as [|t r IH]; intros H; simpl; [lia|].
  rewrite length_app. pose proof (H t (or_introl eq_refl)).
  assert ((List.length (flat_map (resolveTask empId start end_ exceptId) r)
           <= List.length r)%nat)
    by (apply IH; intros u Hu; apply H; now right).
  lia.
Qed.

Lemma resolve_length_good (empId : string) (start end_ : Z)
    (exceptId : option string) (l : list Task) :
  start < end_ -> ForallOrdPairs apart l ->
  (List.length (flat_map (resolveTask empId start end_ exceptId) l)
   <= List.length l + 1)%nat.
Proof.
  intros Hr. induction 1 as [|t r Ht Hd IH]; simpl; [lia|].
  rewrite length_app.
  destruct (resolveTask_length empId start end_ exceptId t)
    as [H2 [H1|(He & Hs & Hen)]]; [lia|].
  assert (Hplain : (List.length (flat_map (resolveTask empId start end_ exceptId) r)
                    <= List.length r)%nat).
  { apply resolve_length_plain. intros u Hu.
    destruct (resolveTask_length empId start end_ exceptId u)
      as [_ [H1|(He' & Hs' & Hen')]]; [exact H1|].
    rewrite Forall_forall in Ht. specialize (Ht u Hu).
    unfold apart, disjoint in Ht. specialize (Ht (eq_trans He (eq_sym He'))).
    lia. }
  lia.
Qed.

End ResolverCompose.

(** X10.  After [resolveOverlaps empId start end_ exceptId], every task
    of the employee other than the exempt one lies outside the range: it
    ends at or before [start] or starts at or after [end_].  This holds
    for every store and every range. *)
Theorem resolveOverlaps_clears_range
    (empId : string) (start end_ : Z) (exceptId : option string)
    (prev : list Task) (u : Task) :
  In u (resolveOverlaps empId start end_ exceptId prev) ->
  task_empId u = empId -> exceptId <> Some (task_id u) ->
  task_end u <= start \/ task_start u >= end_.
Proof. apply resolveOverlaps_clear. Qed.

Lemma resolveOverlaps_clears_range_witness :
  let prev := [ mkTask "t_1" "e_john" gallery "Gallery" 0 6;
                mkTask "t_2" "e_john" break "Break" 6 8 ] in
  let u := mkTask "t_1" "e_john" gallery "Gallery" 3 6 in
  In u (resolveOverlaps "e_john" 2 3 (Some "t_2") prev) /\
  (task_end u <= 2 \/ task_start u >= 3).
Proof.
  intros prev u.
  assert (Hin : In u (resolveOverlaps "e_john" 2 3 (Some "t_2") prev))
    by (right; now left).
  split; [exact Hin|].
  apply (resolveOverlaps_clears_range "e_john" 2 3 (Some "t_2") prev u Hin);
    [reflexivity | discriminate].
Defined.

(** X11.  [resolveOverlaps] changes coverage only for its employee and
    only on the rows of its range: for a row outside [start, end_), or for
    another employee, some task of that employee with kind [k] and label
    [lbl] covers the row after the call if and only if one did before. *)
Theorem resolveOverlaps_keeps_coverage_elsewhere
    (empId : string) (start end_ : Z) (exceptId : option string)
    (prev : list Task) (who : string) (k : TaskType) (lbl : string) (r : Z) :
  r < start \/ end_ <= r \/ who <> empId ->
  covers (resolveOverlaps empId start end_ exceptId prev) who k lbl r
  <-> covers prev who k lbl r.
Proof. apply resolveOverlaps_covers. Qed.

Lemma resolveOverlaps_keeps_coverage_elsewhere_witness :
  let prev := [mkTask "t_1" "e_john" gallery "Gallery" 0 6] in
  (5 < 2 \/ 3 <= 5 \/ "e_john" <> "e_john") /\
  covers (resolveOverlaps "e_john" 2 3 None prev) "e_john" gallery "Gallery" 5.
Proof.
  intros prev.
  assert (Hr : 5 < 2 \/ 3 <= 5 \/ "e_john" <> "e_john") by (right; left; lia).
  split; [exact Hr|].
  apply (resolveOverlaps_keeps_coverage_elsewhere
           "e_john" 2 3 None prev "e_john" gallery "Gallery" 5 Hr).
  exists (mkTask "t_1" "e_john" gallery "Gallery" 0 6).
  split; [now left|]. unfold coveredBy. simpl. repeat split; lia.
Defined.

(** X12.  On a store in which the tasks of each employee are pairwise
    disjoint, [resolveOverlaps] with [start < end_] makes the store at
    most one task longer: at most one task can straddle the range. *)
Theorem resolveOverlaps_adds_at_most_one
    (empId : string) (start end_ : Z) (exceptId : option string)
    (prev : list Task) :
  start < end_ -> noOverlap prev ->
  (List.length (resolveOverlaps empId start end_ exceptId prev)
   <= List.length prev + 1)%nat.
Proof.
  intros Hr Hd. rewrite resolveOverlaps_flat_map.
  apply resolve_length_good; [exact Hr | now apply noOverlap_FOP].
Qed.

Lemma resolveOverlaps_adds_at_most_one_witness :
  let prev := [ mkTask "t_1" "e_john" gallery "Gallery" 0 6;
                mkTask "t_2" "e_john" break "Break" 6 8 ] in
  2 < 3 /\ noOverlap prev /\
  (List.length (resolveOverlaps "e_john" 2 3 None prev)
   <= List.length prev + 1)%nat.
Proof.
  intros prev.
  assert (Hr : 2 < 3) by lia.
  assert (Hd : noOverlap prev) by (apply noOverlapb_true; reflexivity).
  split; [exact Hr|]. split; [exact Hd|].
  exact (resolveOverlaps_adds_at_most_one "e_john" 2 3 None prev Hr Hd).
Defined.

(** X13.  The order of the store does not matter to [resolveOverlaps]:
    the result on a store made of two parts is the result on the first
    part followed by the result on the second, and the results on two
    stores that hold the same tasks in different orders hold the same
    tasks. *)
Theorem resolveOverlaps_order_irrelevant
    (empId : string) (start end_ : Z) (exceptId : option string) :
  (forall l1 l2,
     resolveOverlaps empId start end_ exceptId (l1 ++ l2)
     = resolveOverlaps empId start end_ exceptId l1
       ++ resolveOverlaps empId start end_ exceptId l2) /\
  (forall l l',
     Permutation l l' ->
     Permutation (resolveOverlaps empId start end_ exceptId l)
                 (resolveOverlaps empId start end_ exceptId l')).
Proof.
  split.
  - intros l1 l2. rewrite !resolveOverlaps_flat_map. apply flat_map_app.
  - apply resolveOverlaps_perm.
Qed.

(** X14.  On a store whose tasks all have [start < end], clearing
    [a, b) and then [b, c) for the same employee, with [a <= b <= c] and
    the same exempt id, gives the store that clearing [a, c) in one call
    gives. *)
Theorem resolveOverlaps_adjacent_ranges
    (empId : string) (a b c : Z) (exceptId : option string)
    (prev : list Task) :
  Forall validTask prev -> a <= b -> b <= c ->
  resolveOverlaps empId b c exceptId (resolveOverlaps empId a b exceptId prev)
  = resolveOverlaps empId a c exceptId prev.
Proof. apply resolveOverlaps_compose. Qed.

Lemma resolveOverlaps_adjacent_ranges_witness :
  let prev := [ mkTask "t_1" "e_john" gallery "Gallery" 0 6;
                mkTask "t_2" "e_john" break "Break" 6 8 ] in
  Forall validTask prev /\ 2 <= 5 /\ 5 <= 7 /\
  resolveOverlaps "e_john" 5 7 None (resolveOverlaps "e_john" 2 5 None prev)
  = [ mkTask "t_1" "e_john" gallery "Gallery" 0 2;
      mkTask "t_2" "e_john" break "Break" 7 8 ].
Proof.
  intros prev.
  assert (Hv : Forall validTask prev) by (apply forallb_validTask; reflexivity).
  assert (H1 : 2 <= 5) by lia. assert (H2 : 5 <= 7) by lia.
  split; [exact Hv|]. split; [exact H1|]. split; [exact H2|].
  rewrite (resolveOverlaps_adjacent_ranges "e_john" 2 5 7 None prev Hv H1 H2).
  reflexivity.
Defined.

(** X15.  Each operation keeps the data model on its own: on a store
    whose tasks all have [start < end] and in which the tasks of each
    employee are pairwise disjoint, the store after [resolveOverlaps], for
    any employee, any range with [start < end_] and any exempt id, and the
    store after [mergeAdjacent], for any employee, again have both
    properties. *)
Theorem operations_keep_data_model (prev : list Task) :
  Forall validTask prev -> noOverlap prev ->
  (forall empId start end_ exceptId,
     start < end_ ->
     Forall validTask (resolveOverlaps empId start end_ exceptId prev) /\
     noOverlap (resolveOverlaps empId start end_ exceptId prev)) /\
  (forall empId,
     Forall validTask (mergeAdjacent empId prev) /\
     noOverlap (mergeAdjacent empId prev)).
Proof.
  intros Hv Hd. apply noOverlap_FOP in Hd. split.
  - intros empId start end_ exceptId Hr.
    destruct (resolveOverlaps_good empId start end_ exceptId Hr prev
                (conj Hv Hd)) as [Hv' Hd'].
    split; [exact Hv' | now apply noOverlap_FOP].
  - intros empId.
    destruct (mergeAdjacent_good empId prev (conj Hv Hd)) as [Hv' Hd'].
    split; [exact Hv' | now apply noOverlap_FOP].
Qed.

Lemma operations_keep_data_model_witness :
  let prev := [ mkTask "t_1" "e_john" gallery "Gallery" 0 6;
                mkTask "t_2" "e_john" gallery "Gallery" 6 8;
                mkTask "t_3" "e_mary" break "Break" 1 7 ] in
  Forall validTask prev /\ noOverlap prev /\
  noOverlap (resolveOverlaps "e_john" 2 7 (Some "t_2") prev) /\
  noOverlap (mergeAdjacent "e_john" prev).
Proof.
  intros prev.
  assert (Hv : Forall validTask prev) by (apply forallb_validTask; reflexivity).
  assert (Hd : noOverlap prev) by (apply noOverlapb_true; reflexivity).
  destruct (operations_keep_data_model prev Hv Hd) as [Hres Hmer].
  assert (Hr : 2 < 7) by lia.
  split; [exact Hv|]. split; [exact Hd|]. split.
  - exact (proj2 (Hres "e_john" 2 7 (Some "t_2") Hr)).
  - exact (proj2 (Hmer "e_john")).
Defined.

(* ================================================================= *)
(** ** Further properties of the compactor *)

Section CompactorMore.

Lemma mergeFrom_length (arr : list Task) (cur : Task) :
  (List.length (mergeFrom cur arr) <= S (List.length arr))%nat.
Proof.
  revert cur. induction arr as [|t r IH]; intro cur; simpl; [lia|].
  destruct (sameKind cur t); simpl.
  - specialize (IH (with_end cur (task_end t))). lia.
  - specialize (IH t). lia.
Qed.

Lemma mergeLoop_length (arr : list Task) :
  (List.length (mergeLoop arr) <= List.length arr)%nat.
Proof.
  destruct arr as [|c r]; [simpl; lia|].
  rewrite mergeLoop_cons. apply mergeFrom_length.
Qed.

Lemma mergeAdjacent_length (empId : string) (prev : list Task) :
  (List.length (mergeAdjacent empId prev) <= List.length prev)%nat.
Proof.
  unfold mergeAdjacent. rewrite length_app.
  pose proof (mergeLoop_length (sortByStart (filter (ofEmp empId) prev))) as H.
  rewrite <- (Permutation_length (sortByStart_perm _)) in H.
  rewrite (Permutation_length (split_by_owner empId prev)), length_app.
  lia.
Qed.

Lemma mergeFrom_grows (arr : list Task) (cur u : Task) :
  Forall validTask (cur :: arr) -> In u (mergeFrom cur arr) ->
  exists t, In t (cur :: arr) /\ u = with_end t (task_end u) /\
            task_end t <= task_end u.
Proof.
  revert cur. induction arr as [|t r IH]; intros cur Hv; simpl.
  - intros [<-|[]]. exists cur.
    split; [now left|]. split; [now rewrite with_end_same | lia].
  - inversion Hv as [|? ? Hvc Hv1]; subst.
    inversion Hv1 as [|? ? Hvt Hvr]; subst.
    destruct (sameKind cur t) eqn:Hk.
    + apply sameKind_true in Hk. destruct Hk as (_ & _ & Hadj & _).
      intros Hu.
      assert (Hv' : Forall validTask (with_end cur (task_end t) :: r)).
      { constructor; [|exact Hvr]. unfold validTask in *. simpl. lia. }
      destruct (IH _ Hv' Hu) as (t' & [<-|Hin] & Eu & Hle).
      * exists cur. split; [now left|]. split; [exact Eu|].
        simpl in Hle. unfold validTask in *. lia.
      * exists t'. split; [now right; right | now split].
    + intros [<-|Hu].
      * exists cur. split; [now left|].
        split; [now rewrite with_end_same | lia].
      * destruct (IH _ Hv1 Hu) as (t' & Hin & Eu & Hle).
        exists t'. split; [now right | now split].
Qed.

Lemma mergeAdjacent_grows (empId : string) (prev : list Task) (u : Task) :
  Forall validTask prev -> In u (mergeAdjacent empId prev) ->
  exists t, In t prev /\ u = with_end t (task_end u) /\
            task_end t <= task_end u.
Proof.
  intros Hv Hu. unfold mergeAdjacent in Hu. apply in_app_or in Hu.
  destruct Hu as [Hu|Hu].
  - apply filter_In in Hu. exists u.
    split; [tauto|]. split; [now rewrite with_end_same | lia].
  - assert (Hm : Forall validTask (sortByStart (filter (ofEmp empId) prev))).
    { rewrite Forall_forall in *. intros t Ht.
      apply (proj1 (sortByStart_In _ _)) in Ht. apply filter_In in Ht.
      now apply Hv. }
    destruct (sortByStart (filter (ofEmp empId) prev)) as [|c rest] eqn:E;
      [destruct Hu|].
    rewrite mergeLoop_cons in Hu.
    destruct (mergeFrom_grows rest c u Hm Hu) as (t & Ht & Eu & Hle).
    exists t. split; [|now split].
    rewrite <- E in Ht. apply (proj1 (sortByStart_In _ _)) in Ht.
    now apply filter_In in Ht.
Qed.

(** In a list of one employee's tasks that is in order of start, valid,
    pairwise disjoint and settled, no task ends where another starts with
    the same kind and label, tour-like kinds apart. *)
Lemma settled_no_mergeable (l : list Task) (e : string) :
  Forall (fun t => task_empId t = e) l ->
  Forall validTask l -> ForallOrdPairs apart l ->
  StronglySorted leStart l -> settled l ->
  forall a b, In a l -> In b l -> ~ mergeable a b.
Proof.
  induction l as [|x r IH]; intros Ho Hv Hd Hs Hn a b Ha Hb Hm;
    [destruct Ha|].
  inversion Ho as [|? ? Hox Hor]; subst.
  inversion Hv as [|? ? Hvx Hvr]; subst.
  inversion Hd as [|? ? Hdx Hdr]; subst.
  apply StronglySorted_inv in Hs. destruct Hs as [Hsr Hsx].
  apply Sorted_inv in Hn. destruct Hn as [Hnr Hnx].
  pose proof (proj1 (mergeable_sameKind a b) Hm) as Hk.
  destruct Hm as (_ & _ & Hadj & _).
  rewrite Forall_forall in Hvr, Hsx, Hdx, Hor.
  unfold validTask, leStart in *.
  destruct Ha as [<-|Ha]; destruct Hb as [<-|Hb].
  - lia.
  - destruct r as [|y r']; [destruct Hb|].
    apply HdRel_inv in Hnx.
    destruct Hb as [<-|Hb]; [congruence|].
    apply StronglySorted_inv in Hsr. destruct Hsr as [_ Hsy].
    inversion Hdr as [|? ? Hdy _]; subst.
    rewrite Forall_forall in Hsy, Hdy.
    assert (Hy : In y (y :: r')) by now left.
    assert (Hb' : In b (y :: r')) by now right.
    pose proof (Hvr y Hy). pose proof (Hvr b Hb'). pose proof (Hsx y Hy).
    pose proof (Hsy b Hb).
    assert (Exy : task_empId x = task_empId y) by (rewrite (Hor y Hy); auto).
    assert (Eyb : task_empId y = task_empId b)
      by (rewrite (Hor y Hy), (Hor b Hb'); auto).
    pose proof (Hdx y Hy Exy) as D1. pose proof (Hdy b Hb Eyb) as D2.
    unfold disjoint in *. lia.
  - pose proof (Hvr a Ha). pose proof (Hsx a Ha). lia.
  - apply (IH (proj2 (Forall_forall _ _) Hor) (proj2 (Forall_forall _ _) Hvr)
              Hdr Hsr Hnr a b Ha Hb).
    now apply mergeable_sameKind.
Qed.

Lemma mergeLoop_settled (arr : list Task) : settled (mergeLoop arr).
Proof.
  destruct arr as [|c r]; [constructor|].
  rewrite mergeLoop_cons. apply mergeFrom_settled.
Qed.

End CompactorMore.

Lemma mergeAdjacent_no_mergeable
    (empId : string) (prev : list Task) :
  Forall validTask prev -> noOverlap prev ->
  forall a b,
    In a (mergeAdjacent empId prev) -> In b (mergeAdjacent empId prev) ->
    task_empId a = empId -> task_empId b = empId ->
    ~ mergeable a b.
Proof.
  intros Hv Hd a b Ha Hb Ea Eb. apply noOverlap_FOP in Hd.
  destruct (mergeAdjacent_good empId prev (conj Hv Hd)) as [Hv' Hd'].
  assert (Hin : forall u, In u (mergeAdjacent empId prev) ->
                          task_empId u = empId ->
                          In u (mergeLoop (sortByStart
                                             (filter (ofEmp empId) prev)))).
  { intros u Hu Eu. rewrite <- mergeAdjacent_mine.
    apply filter_In. split; [exact Hu | now apply ofEmp_true]. }
  unfold mergeAdjacent in Hv', Hd'.
  apply Forall_app in Hv'. apply (FOP_app apart) in Hd'.
  apply (settled_no_mergeable
           (mergeLoop (sortByStart (filter (ofEmp empId) prev))) empId).
  - apply keep_owner.
  - tauto.
  - tauto.
  - apply mergeLoop_sorted, sortByStart_sorted.
  - apply mergeLoop_settled.
  - now apply Hin.
  - now apply Hin.
Qed.

(** X16.  After [mergeAdjacent empId] on a store of the data model (tasks
    with [start < end], pairwise disjoint per employee), nothing is left to
    merge for that employee: no two of the employee's tasks have the same
    kind and label, with the first ending where the second starts and
    neither tour-like. *)
Theorem mergeAdjacent_leaves_nothing_to_merge
    (empId : string) (prev : list Task) :
  Forall validTask prev -> noOverlap prev ->
  forall a b,
    In a (mergeAdjacent empId prev) -> In b (mergeAdjacent empId prev) ->
    task_empId a = empId -> task_empId b = empId ->
    ~ mergeable a b.
Proof. apply mergeAdjacent_no_mergeable. Qed.

Lemma mergeAdjacent_leaves_nothing_to_merge_witness :
  let prev := [ mkTask "t_3" "e_john" gallery "Gallery" 2 3;
                mkTask "t_1" "e_john" gallery "Gallery" 0 1;
                mkTask "t_2" "e_john" gallery "Gallery" 1 2;
                mkTask "t_4" "e_john" break "Break" 3 4 ] in
  let a := mkTask "t_1" "e_john" gallery "Gallery" 0 3 in
  let b := mkTask "t_4" "e_john" break "Break" 3 4 in
  Forall validTask prev /\ noOverlap prev /\
  mergeAdjacent "e_john" prev = [a; b] /\ ~ mergeable a b.
Proof.
  intros prev a b.
  assert (Hv : Forall validTask prev) by (apply forallb_validTask; reflexivity).
  assert (Hd : noOverlap prev) by (apply noOverlapb_true; reflexivity).
  split; [exact Hv|]. split; [exact Hd|]. split; [reflexivity|].
  apply (mergeAdjacent_leaves_nothing_to_merge "e_john" prev Hv Hd a b);
    try reflexivity; [now left | right; now left].
Defined.

(** X17.  [mergeAdjacent] makes no task of its own: the store does not
    get longer, and every task of the result is a task of the store before
    with the same id, owner, kind, label and start; when the tasks of the
    store all have [start < end], its end is the same or later. *)
Theorem mergeAdjacent_only_extends (empId : string) (prev : list Task) :
  (List.length (mergeAdjacent empId prev) <= List.length prev)%nat /\
  (forall u, In u (mergeAdjacent empId prev) ->
     exists t, In t prev /\ u = with_end t (task_end u)) /\
  (Forall validTask prev ->
   forall u, In u (mergeAdjacent empId prev) ->
     exists t, In t prev /\ u = with_end t (task_end u) /\
               task_end t <= task_end u).
Proof.
  split; [apply mergeAdjacent_length|]. split.
  - intros u Hu.
    destruct (mergeAdjacent_origin empId prev u Hu) as (t & e & Ht & ->).
    exists t. split; [exact Ht | reflexivity].
  - intros Hv u Hu. now apply (mergeAdjacent_grows empId).
Qed.

(* ================================================================= *)
(** ** Further properties of [addTaskAt] *)

Lemma addTaskAt_cell_coverage
    (empId : string) (row : Z) (type : TaskType) (st : AppState) :
  Forall validTask (tasks st) ->
  let st' := addTaskAt empId row type st in
  (forall who k lbl r,
     r <> row \/ who <> empId ->
     (covers (tasks st') who k lbl r <-> covers (tasks st) who k lbl r)) /\
  (forall k lbl,
     covers (tasks st') empId k lbl row <->
     k = type /\ lbl = TYPE_LABEL type).
Proof.
  intros Hv st'.
  set (resolved := resolveOverlaps empId row (row + 1) None (tasks st)).
  set (new := newTaskAt empId row type st).
  assert (Hres : Forall validTask resolved)
    by (apply resolveOverlaps_valid; exact Hv).
  assert (Hmine : forall t, In t (resolved ++ [new]) ->
                            task_empId t = empId -> validTask t).
  { intros t Ht _. apply in_app_or in Ht. destruct Ht as [Ht|[<-|[]]].
    - rewrite Forall_forall in Hres. now apply Hres.
    - unfold validTask. simpl. lia. }
  assert (Hst : forall who k lbl r,
             covers (tasks st') who k lbl r <->
             covers resolved who k lbl r \/ coveredBy new who k lbl r).
  { intros who k lbl r. unfold st'. rewrite addTaskAt_tasks.
    fold resolved. change (mkTask _ empId type (TYPE_LABEL type) row (row + 1))
      with new.
    destruct (isTourLike type).
    - rewrite covers_app, covers_cons.
      pose proof (covers_nil who k lbl r). tauto.
    - rewrite (mergeAdjacent_covers who k lbl r empId _ Hmine).
      rewrite covers_app, covers_cons.
      pose proof (covers_nil who k lbl r). tauto. }
  split.
  - intros who k lbl r Hr. rewrite Hst. unfold resolved.
    assert (Hr' : r < row \/ row + 1 <= r \/ who <> empId).
    { destruct Hr as [Hr|Hr]; [|tauto].
      assert (r < row \/ row + 1 <= r) by lia. tauto. }
    rewrite (resolveOverlaps_covers _ _ _ _ who k lbl r (tasks st) Hr').
    split; [|tauto]. intros [H|(E1 & _ & _ & Hrow)]; [exact H|].
    simpl in E1, Hrow. destruct Hr as [Hr|Hr]; [lia | congruence].
  - intros k lbl. rewrite Hst. split.
    + intros [(u & Hu & Eu & _ & _ & Hrow)|(_ & Ek & El & _)].
      * destruct (resolveOverlaps_clear empId row (row + 1) None
                    (tasks st) u Hu Eu); [discriminate | lia | lia].
      * simpl in Ek, El. now split.
    + intros [-> ->]. right. unfold coveredBy. simpl.
      repeat split; lia.
Qed.

(** X18.  On a store whose tasks all have [start < end], [addTaskAt] on
    a row that is a safe integer changes the coverage of one cell only.  For any other row, or any
    other employee, some task of that employee with kind [k] and label
    [lbl] covers the row after the call if and only if one did before;
    and the cell [row] of the employee is covered afterwards by the given
    kind with its canonical label and by nothing else. *)
Theorem addTaskAt_paints_one_cell
    (empId : string) (row : Z) (type : TaskType) (st : AppState) :
  safeInteger row ->
  Forall validTask (tasks st) ->
  let st' := addTaskAt empId row type st in
  (forall who k lbl r,
     r <> row \/ who <> empId ->
     (covers (tasks st') who k lbl r <-> covers (tasks st) who k lbl r)) /\
  (forall k lbl,
     covers (tasks st') empId k lbl row <->
     k = type /\ lbl = TYPE_LABEL type).
Proof. intros _. apply addTaskAt_cell_coverage. Qed.

Lemma addTaskAt_paints_one_cell_witness :
  safeInteger 1 /\ Forall validTask (tasks initialState) /\
  (covers (tasks (addTaskAt "e_john" 1 tour initialState))
          "e_john" gallery "Gallery" 2
   <-> covers (tasks initialState) "e_john" gallery "Gallery" 2) /\
  ~ covers (tasks (addTaskAt "e_john" 1 tour initialState))
           "e_john" gallery "Gallery" 1.
Proof.
  assert (Hv : Forall validTask (tasks initialState))
    by (apply forallb_validTask; reflexivity).
  assert (Hs : safeInteger 1) by (unfold safeInteger, MAX_SAFE_INTEGER; lia).
  destruct (addTaskAt_paints_one_cell "e_john" 1 tour initialState Hs Hv)
    as [Hother Hcell].
  split; [exact Hs|]. split; [exact Hv|]. split.
  - apply Hother. left. lia.
  - intros H. apply Hcell in H. destruct H as [H _]. discriminate.
Defined.

(** X19.  [addTaskAt empId ...] leaves the tasks of every other employee
    as they are: the sub-array of the tasks whose [empId] differs is the
    same before and after, for every store, row and kind. *)
Theorem addTaskAt_other_employees
    (empId : string) (row : Z) (type : TaskType) (st : AppState) :
  filter (notOfEmp empId) (tasks (addTaskAt empId row type st))
  = filter (notOfEmp empId) (tasks st).
Proof.
  rewrite addTaskAt_tasks.
  assert (H : filter (notOfEmp empId)
                (resolveOverlaps empId row (row + 1) None (tasks st)
                 ++ [mkTask ("t_" ++ numToString (seq st + 1))%string
                       empId type (TYPE_LABEL type) row (row + 1)])
              = filter (notOfEmp empId) (tasks st)).
  { rewrite filter_snoc_out.
    - apply resolveOverlaps_others.
    - apply notOfEmp_false. reflexivity. }
  destruct (isTourLike type); [exact H|].
  now rewrite mergeAdjacent_others.
Qed.

(* ================================================================= *)
(** ** Tasks per employee *)

Section ByEmployee.

Lemma getKey_updKey (k k' : string) (f : option (list Task) -> list Task)
    (m : Buckets) :
  getKey k (updKey k' f m)
  = if String.eqb k' k then Some (f (getKey k m)) else getKey k m.
Proof.
  induction m as [|[k0 v] r IH]; simpl.
  - destruct (String.eqb k' k); reflexivity.
  - destruct (String.eqb_spec k0 k') as [->|Hne]; simpl.
    + destruct (String.eqb k' k); reflexivity.
    + rewrite IH. destruct (String.eqb_spec k0 k) as [->|Hk]; [|reflexivity].
      destruct (String.eqb_spec k' k) as [->|_]; [contradiction|reflexivity].
Qed.

Lemma getKey_roster (k : string) (emps : list Employee) (m0 : Buckets) :
  getKey k (fold_left (fun m e => updKey (emp_id e) (fun _ => []) m) emps m0)
  = if existsb (fun e => String.eqb (emp_id e) k) emps then Some []
    else getKey k m0.
Proof.
  revert m0. induction emps as [|e r IH]; intro m0; simpl; [reflexivity|].
  rewrite IH, getKey_updKey.
  destruct (String.eqb (emp_id e) k); simpl;
    destruct (existsb _ r); reflexivity.
Qed.

Lemma getKey_tasks (k : string) (ts : list Task) (m0 : Buckets) :
  getKey k (fold_left (fun m t => updKey (task_empId t) (pushTask t) m) ts m0)
  = match getKey k m0 with
    | Some l => Some (l ++ filter (ofEmp k) ts)
    | None => if existsb (ofEmp k) ts then Some (filter (ofEmp k) ts)
              else None
    end.
Proof.
  revert m0. induction ts as [|t r IH]; intro m0; simpl.
  - destruct (getKey k m0); [now rewrite app_nil_r | reflexivity].
  - rewrite IH, getKey_updKey.
    change (String.eqb (task_empId t) k) with (ofEmp k t).
    destruct (ofEmp k t); simpl.
    + destruct (getKey k m0); simpl; [now rewrite <- app_assoc|reflexivity].
    + reflexivity.
Qed.

Lemma getKey_sorted (k : string) (m : Buckets) :
  getKey k (map (fun kv => (fst kv, sortByStart (snd kv))) m)
  = option_map sortByStart (getKey k m).
Proof.
  induction m as [|[k0 v] r IH]; simpl; [reflexivity|].
  destruct (String.eqb k0 k); [reflexivity | exact IH].
Qed.

End ByEmployee.

(** X20.  When no employee id of the roster or the store is a name
    inherited from [Object.prototype], [byEmp] has a property for exactly
    the ids of the roster and the owners of the tasks: the employee's
    tasks, all of them and no others, in order of start (tasks with equal
    start in store order); an employee of the roster without tasks gets
    the empty array. *)
Theorem byEmp_buckets (emps : list Employee) (ts : list Task) :
  forallb plainKey (map emp_id emps ++ map task_empId ts) = true ->
  exists m,
    byEmp emps ts = Some m /\
    forall k,
      getKey k m
      = if existsb (fun e => String.eqb (emp_id e) k) emps
           || existsb (ofEmp k) ts
        then Some (sortByStart (filter (ofEmp k) ts))
        else None.
Proof.
  intros Hp. unfold byEmp. rewrite Hp. eexists. split; [reflexivity|].
  intros k. rewrite getKey_sorted, getKey_tasks, getKey_roster. simpl.
  destruct (existsb (fun e => String.eqb (emp_id e) k) emps); simpl;
    [reflexivity|].
  destruct (existsb (ofEmp k) ts); reflexivity.
Qed.

Lemma byEmp_buckets_witness :
  let ts := [ mkTask "t_2" "e_john" gallery "Gallery" 1 3;
              mkTask "t_3" "e_temp" break "Break" 4 5;
              mkTask "t_1" "e_john" front "Front Desk" 0 1 ] in
  forallb plainKey (map emp_id (employees initialState) ++ map task_empId ts)
  = true /\
  byEmp (employees initialState) ts
  = Some [ ("e_john", [ mkTask "t_1" "e_john" front "Front Desk" 0 1;
                        mkTask "t_2" "e_john" gallery "Gallery" 1 3 ]);
           ("e_robert", []); ("e_mary", []);
           ("e_temp", [ mkTask "t_3" "e_temp" break "Break" 4 5 ]) ].
Proof.
  intros ts.
  assert (Hp : forallb plainKey
                 (map emp_id (employees initialState) ++ map task_empId ts)
               = true) by reflexivity.
  split; [exact Hp|].
  destruct (byEmp_buckets (employees initialState) ts Hp) as (m & Hm & _).
  reflexivity.
Defined.

(* ================================================================= *)
(** ** A new task absorbed by its left neighbour *)

Section Absorbed.

Lemma SSorted_app {A : Type} (R : A -> A -> Prop) (l1 l2 : list A) :
  StronglySorted R (l1 ++ l2) ->
  StronglySorted R l1 /\ StronglySorted R l2 /\
  (forall a b, In a l1 -> In b l2 -> R a b).
Proof.
  induction l1 as [|x r IH]; simpl; intros H.
  - repeat split; [constructor | exact H | intros ? ? []].
  - apply StronglySorted_inv in H. destruct H as [Hs Hx].
    destruct (IH Hs) as (H1 & H2 & H3).
    apply Forall_app in Hx. destruct Hx as [Hx1 Hx2].
    repeat split; [now constructor | exact H2 |].
    intros a b [<-|Ha] Hb.
    + rewrite Forall_forall in Hx2. now apply Hx2.
    + now apply H3.
Qed.

Lemma FOP_cons_inv {A : Type} (R : A -> A -> Prop) (a : A) (l : list A) :
  ForallOrdPairs R (a :: l) -> Forall (R a) l /\ ForallOrdPairs R l.
Proof. intros H. inversion H; subst. now split. Qed.

Variable e : string.
Variables (A B : list Task) (N L : Task).

Hypothesis S_sorted : StronglySorted leStart (A ++ N :: B).
Hypothesis S_valid : Forall validTask (A ++ N :: B).
Hypothesis S_apart : ForallOrdPairs apart (A ++ N :: B).
Hypothesis S_owner : Forall (fun t => task_empId t = e) (A ++ N :: B).
Hypothesis L_in : In L (A ++ N :: B).
Hypothesis L_ends : task_end L = task_start N.
Hypothesis L_type : task_type L = task_type N.
Hypothesis L_label : task_label L = task_label N.
Hypothesis N_plain : isTourLike (task_type N) = false.

Lemma same_owner_apart (a b : Task) :
  In a (A ++ N :: B) -> In b (A ++ N :: B) -> apart a b -> disjoint a b.
Proof.
  intros Ha Hb H. apply H. pose proof S_owner as Ho.
  rewrite Forall_forall in Ho.
  now rewrite (Ho a Ha), (Ho b Hb).
Qed.

Lemma left_neighbour_last : exists A1, A = A1 ++ [L].
Proof.
  pose proof S_valid as Hv. rewrite Forall_forall in Hv.
  assert (HN : In N (A ++ N :: B)) by (apply in_or_app; right; now left).
  pose proof (Hv N HN) as HvN. pose proof (Hv L L_in) as HvL.
  unfold validTask in HvN, HvL.
  destruct (SSorted_app _ _ _ S_sorted) as (_ & HsNB & HsAN).
  apply StronglySorted_inv in HsNB. destruct HsNB as [_ HsB].
  rewrite Forall_forall in HsB.
  assert (HLA : In L A).
  { pose proof L_in as HL. apply in_app_or in HL.
    destruct HL as [H|[H|H]]; [exact H | |].
    - pose proof L_ends as Le. rewrite <- H in Le. lia.
    - specialize (HsB L H). unfold leStart in HsB. lia. }
  destruct (in_split _ _ HLA) as (A1 & A2 & EA).
  exists A1. destruct A2 as [|a A2']; [exact EA|]. exfalso.
  assert (Ha : In a (A ++ N :: B)).
  { apply in_or_app. left. rewrite EA. apply in_or_app. right. now right; left. }
  pose proof (Hv a Ha) as Hva. unfold validTask in Hva.
  assert (HaN : leStart a N).
  { apply HsAN; [|now left]. rewrite EA. apply in_or_app. right.
    now right; left. }
  pose proof S_sorted as Hs. pose proof S_apart as Hd.
  rewrite EA, <- app_assoc in Hs, Hd. simpl in Hs, Hd.
  destruct (SSorted_app _ _ _ Hs) as (_ & HsL & _).
  apply StronglySorted_inv in HsL. destruct HsL as [_ HLa].
  apply Forall_inv in HLa.
  apply (FOP_app apart) in Hd. destruct Hd as (_ & Hd & _).
  apply FOP_cons_inv in Hd. destruct Hd as [HdL Hd1].
  apply Forall_inv in HdL.
  apply FOP_cons_inv in Hd1. destruct Hd1 as [Hda _].
  rewrite Forall_forall in Hda.
  assert (HdaN : apart a N)
    by (apply Hda; apply in_or_app; right; now left).
  apply (same_owner_apart L a L_in Ha) in HdL.
  apply (same_owner_apart a N Ha HN) in HdaN.
  pose proof L_ends as Le.
  unfold leStart in HaN, HLa. unfold disjoint in HdL, HdaN. lia.
Qed.

Lemma mergeStep_last (keep : list Task) (t : Task) :
  exists K u, mergeStep keep t = K ++ [u] /\
    task_type u = task_type t /\ task_label u = task_label t /\
    task_end u = task_end t /\
    (forall x, In x (K ++ [u]) ->
       exists t0 e0, In t0 (keep ++ [t]) /\ x = with_end t0 e0).
Proof.
  assert (Hself : forall l x, In x l ->
            exists t0 e0, In t0 l /\ x = with_end t0 e0).
  { intros l x Hx. exists x, (task_end x).
    split; [exact Hx | now rewrite with_end_same]. }
  unfold mergeStep. destruct (lastOpt keep) as [last|] eqn:El.
  - destruct (sameKind last t) eqn:Hk.
    + apply sameKind_true in Hk. destruct Hk as (Ht & Hl & _).
      exists (removelast keep), (with_end last (task_end t)).
      repeat split; auto.
      assert (Ek : keep = removelast keep ++ [last]).
      { destruct keep as [|k0 ks] using rev_ind; [discriminate|].
        rewrite lastOpt_snoc in El. injection El as <-.
        now rewrite removelast_last. }
      intros x Hx. apply in_app_or in Hx. destruct Hx as [Hx|[<-|[]]].
      * exists x, (task_end x). split; [|now rewrite with_end_same].
        apply in_or_app. left. rewrite Ek. apply in_or_app. now left.
      * exists last, (task_end t). split; [|reflexivity].
        apply in_or_app. left. rewrite Ek. apply in_or_app. right. now left.
    + exists keep, t. repeat split; auto.
  - exists keep, t. repeat split; auto.
Qed.

Lemma absorbed_origin (u : Task) :
  In u (mergeLoop (A ++ N :: B)) ->
  exists t e0, In t (A ++ B) /\ u = with_end t e0.
Proof.
  destruct left_neighbour_last as [A1 EA]. intros Hu.
  unfold mergeLoop in Hu. rewrite fold_left_app in Hu.
  change (fold_left mergeStep A []) with (mergeLoop A) in Hu.
  assert (EmA : mergeLoop A = mergeStep (mergeLoop A1) L).
  { rewrite EA. unfold mergeLoop. now rewrite fold_left_app. }
  destruct (mergeStep_last (mergeLoop A1) L)
    as (K & v & EK & Hty & Hlb & Hen & Horig).
  rewrite EmA, EK in Hu. simpl in Hu.
  assert (Hk : sameKind v N = true).
  { pose proof L_type. pose proof L_label. pose proof L_ends.
    pose proof N_plain. apply sameKind_true. repeat split; congruence. }
  rewrite mergeStep_snoc, Hk, mergeLoop_from in Hu.
  assert (HA : forall x, In x (K ++ [v]) ->
                 exists t e0, In t A /\ x = with_end t e0).
  { intros x Hx. destruct (Horig x Hx) as (t0 & e0 & Ht0 & ->).
    apply in_app_or in Ht0. destruct Ht0 as [Ht0|[<-|[]]].
    - destruct (mergeLoop_origin A1 t0 Ht0) as (t1 & e1 & Ht1 & ->).
      exists t1, e0. split; [|reflexivity].
      rewrite EA. apply in_or_app. now left.
    - exists L, e0. split; [|reflexivity].
      rewrite EA. apply in_or_app. right. now left. }
  apply in_app_or in Hu. destruct Hu as [Hu|Hu].
  - destruct (HA u) as (t & e0 & Ht & ->);
      [apply in_or_app; now left|].
    exists t, e0. split; [apply in_or_app; now left | reflexivity].
  - destruct (mergeFrom_origin B _ u Hu) as (t' & e' & [<-|Ht'] & ->).
    + destruct (HA v) as (t & e0 & Ht & ->);
        [apply in_or_app; right; now left|].
      exists t, e'. split; [apply in_or_app; now left | reflexivity].
    + exists t', e'. split; [apply in_or_app; now right | reflexivity].
Qed.

End Absorbed.

Lemma untouched_task_stays (empId : string) (start end_ : Z)
    (exceptId : option string) (prev : list Task) (t : Task) :
  In t prev -> task_end t <= start ->
  In t (resolveOverlaps empId start end_ exceptId prev).
Proof.
  intros Ht He. rewrite resolveOverlaps_flat_map. apply in_flat_map.
  exists t. split; [exact Ht|]. unfold resolveTask.
  destruct (notOfEmp empId t || isExcept exceptId t); [now left|].
  apply Z.leb_le in He. rewrite He. now left.
Qed.

(** X21.  The selection can be left on an id that no task carries.  In a
    state whose counter is a safe integer, whose ids all came out of [uid]
    and whose store follows the data model, place a task of a kind that
    is not tour-like on a row that is a safe integer, in the cell right
    after a task of the same employee with that kind and its canonical
    label: the new task is merged into that neighbour, which keeps its own
    id.  No task of the store then has the selected id, and pressing
    [Delete] removes nothing. *)
Theorem new_task_absorbed_by_left_neighbour
    (empId : string) (row : Z) (type : TaskType) (st : AppState) (L : Task) :
  safeInteger row -> safeInteger (seq st) ->
  issued st -> Forall validTask (tasks st) -> noOverlap (tasks st) ->
  isTourLike type = false ->
  In L (tasks st) -> task_empId L = empId -> task_type L = type ->
  task_label L = TYPE_LABEL type -> task_end L = row ->
  let st' := addTaskAt empId row type st in
  (forall u, In u (tasks st') -> selectedId st' <> Some (task_id u)) /\
  tasks (onKey "Delete" st') = tasks st'.
Proof.
  intros _ _ Hi Hv Hd Hplain HL HLe HLt HLl HLr st'.
  destruct (addTaskAt_fresh empId row type st Hi)
    as (_ & Hsel & Hfresh & _).
  fold st' in Hsel.
  set (N := newTaskAt empId row type st).
  set (resolved := resolveOverlaps empId row (row + 1) None (tasks st)).
  assert (Hres : forall u, In u resolved -> task_id u <> idOf (seq st + 1)).
  { intros u Hu. destruct (resolveOverlaps_ids _ _ _ _ _ u Hu) as (t & Ht & ->).
    now apply Hfresh. }
  assert (Htasks : tasks st' = mergeAdjacent empId (resolved ++ [N])).
  { unfold st'. rewrite addTaskAt_tasks, Hplain. reflexivity. }
  assert (Hgood : goodStore (resolved ++ [N])).
  { apply noOverlap_FOP in Hd. exact (placed_good empId row type st (conj Hv Hd)). }
  assert (Hids : forall u, In u (tasks st') -> task_id u <> idOf (seq st + 1)).
  { intros u Hu. rewrite Htasks in Hu. unfold mergeAdjacent in Hu.
    apply in_app_or in Hu. destruct Hu as [Hu|Hu].
    - apply filter_In in Hu. destruct Hu as [Hu Ho].
      apply in_app_or in Hu. destruct Hu as [Hu|[<-|[]]]; [now apply Hres|].
      apply notOfEmp_true in Ho. now contradiction Ho.
    - pose proof (goodStore_perm _ _ (before_merge_perm empId (resolved ++ [N]))
                    Hgood) as [Hv' Hd'].
      apply Forall_app in Hv'. apply (FOP_app apart) in Hd'.
      pose proof (mine_owner empId (resolved ++ [N])) as Ho.
      pose proof (sortByStart_sorted (filter (ofEmp empId) (resolved ++ [N])))
        as Hs.
      pose proof (sortByStart_perm (filter (ofEmp empId) (resolved ++ [N])))
        as Hp.
      cbv beta zeta in Ho.
      assert (HfN : filter (ofEmp empId) (resolved ++ [N])
                    = filter (ofEmp empId) resolved ++ [N]).
      { rewrite filter_app. simpl. unfold ofEmp at 2. simpl.
        now rewrite String.eqb_refl. }
      assert (HNS : In N (sortByStart (filter (ofEmp empId) (resolved ++ [N])))).
      { apply sortByStart_In. rewrite HfN. apply in_or_app. right. now left. }
      assert (HLS : In L (sortByStart (filter (ofEmp empId) (resolved ++ [N])))).
      { apply sortByStart_In. rewrite HfN. apply in_or_app. left.
        apply filter_In. split; [|now apply ofEmp_true].
        apply untouched_task_stays; [exact HL | lia]. }
      destruct (in_split _ _ HNS) as (A & B & ES).
      rewrite ES in Hu, Hs, Ho, Hp, HLS. rewrite ES in Hv', Hd'.
      assert (E1 : task_end L = task_start N) by exact HLr.
      assert (E2 : task_type L = task_type N) by exact HLt.
      assert (E3 : task_label L = task_label N) by exact HLl.
      assert (E4 : isTourLike (task_type N) = false) by exact Hplain.
      destruct (absorbed_origin empId A B N L Hs (proj2 Hv')
                  (proj1 (proj2 Hd')) Ho HLS E1 E2 E3 E4 u Hu)
        as (t & e0 & Ht & ->).
      change (task_id (with_end t e0)) with (task_id t). apply Hres.
      assert (Hp' : Permutation (filter (ofEmp empId) resolved) (A ++ B)).
      { apply (Permutation_cons_inv (a := N)).
        eapply perm_trans; [apply Permutation_cons_append|].
        rewrite <- HfN. eapply perm_trans; [exact Hp|].
        apply Permutation_sym, Permutation_middle. }
      apply (Permutation_in _ (Permutation_sym Hp')) in Ht.
      now apply filter_In in Ht. }
  split.
  - intros u Hu E. rewrite Hsel in E. injection E as E.
    symmetry in E. now apply (Hids u Hu).
  - rewrite (onKey_Delete_tasks st' _ Hsel (idOf_not_empty _)).
    apply filter_all. intros u Hu.
    apply negb_true_iff, String.eqb_neq. now apply Hids.
Qed.

Lemma new_task_absorbed_by_left_neighbour_witness :
  let L := mkTask "t_2" "e_john" gallery "Gallery" 1 3 in
  let st' := addTaskAt "e_john" 3 gallery initialState in
  (safeInteger 3 /\ safeInteger (seq initialState) /\
   issued initialState /\ Forall validTask (tasks initialState) /\
   noOverlap (tasks initialState) /\ In L (tasks initialState)) /\
  selectedId st' = Some "t_3" /\
  tasks st' = [ mkTask "t_1" "e_john" front "Front Desk" 0 1;
                mkTask "t_2" "e_john" gallery "Gallery" 1 4 ] /\
  tasks (onKey "Delete" st') = tasks st'.
Proof.
  intros L st'.
  assert (Hi : issued initialState).
  { intros t [<-|[<-|[]]]; [exists 1 | exists 2];
      (split; [simpl; lia | reflexivity]). }
  assert (Hv : Forall validTask (tasks initialState))
    by (apply forallb_validTask; reflexivity).
  assert (Hd : noOverlap (tasks initialState))
    by (apply noOverlapb_true; reflexivity).
  assert (HL : In L (tasks initialState)) by (right; now left).
  assert (Hr : safeInteger 3) by (unfold safeInteger, MAX_SAFE_INTEGER; lia).
  assert (Hs : safeInteger (seq initialState))
    by (unfold safeInteger, MAX_SAFE_INTEGER; simpl; lia).
  split; [exact (conj Hr (conj Hs (conj Hi (conj Hv (conj Hd HL)))))|].
  split; [reflexivity|]. split; [reflexivity|].
  exact (proj2 (new_task_absorbed_by_left_neighbour
                  "e_john" 3 gallery initialState L Hr Hs Hi Hv Hd eq_refl
                  HL eq_refl eq_refl eq_refl eq_refl)).
Defined.

(* ================================================================= *)
(** ** A block taken over by a new task *)

Section TakenOver.

Lemma mergeFrom_contains (arr : list Task) (cur t : Task) :
  Forall validTask (cur :: arr) -> In t (cur :: arr) ->
  exists u, In u (mergeFrom cur arr) /\
            task_start u <= task_start t /\ task_end t <= task_end u.
Proof.
  revert cur t. induction arr as [|x r IH]; intros cur t Hv Ht.
  - destruct Ht as [<-|[]]. exists cur. simpl. split; [now left | lia].
  - inversion Hv as [|? ? Hvc Hv1]; subst.
    inversion Hv1 as [|? ? Hvx Hvr]; subst.
    cbn [mergeFrom]. destruct (sameKind cur x) eqn:Hk.
    + apply sameKind_true in Hk. destruct Hk as (_ & _ & Hadj & _).
      assert (Hv' : Forall validTask (with_end cur (task_end x) :: r)).
      { constructor; [|exact Hvr]. unfold validTask in *. simpl. lia. }
      unfold validTask in Hvc, Hvx.
      destruct Ht as [<-|[<-|Ht]].
      * destruct (IH _ (with_end cur (task_end x)) Hv' (or_introl eq_refl))
          as (u & Hu & Hs & He).
        exists u. simpl in Hs, He. split; [exact Hu | lia].
      * destruct (IH _ (with_end cur (task_end x)) Hv' (or_introl eq_refl))
          as (u & Hu & Hs & He).
        exists u. simpl in Hs, He. split; [exact Hu | lia].
      * destruct (IH _ t Hv' (or_intror Ht)) as (u & Hu & Hs & He).
        exists u. split; [exact Hu | lia].
    + destruct Ht as [<-|Ht].
      * exists cur. split; [now left | lia].
      * destruct (IH _ t Hv1 Ht) as (u & Hu & Hs & He).
        exists u. split; [now right | lia].
Qed.

Lemma mergeAdjacent_contains (empId : string) (prev : list Task) (t : Task) :
  Forall validTask prev -> In t prev -> task_empId t = empId ->
  exists u, In u (mergeAdjacent empId prev) /\ task_empId u = empId /\
            task_start u <= task_start t /\ task_end t <= task_end u.
Proof.
  intros Hv Ht He.
  assert (Hm : Forall validTask (sortByStart (filter (ofEmp empId) prev))).
  { rewrite Forall_forall in *. intros x Hx.
    apply (proj1 (sortByStart_In _ _)) in Hx. apply filter_In in Hx.
    now apply Hv. }
  assert (Hin : In t (sortByStart (filter (ofEmp empId) prev))).
  { apply sortByStart_In, filter_In. split; [exact Ht | now apply ofEmp_true]. }
  pose proof (keep_owner empId prev) as Ho. cbv beta zeta in Ho.
  unfold mergeAdjacent.
  destruct (sortByStart (filter (ofEmp empId) prev)) as [|c rest];
    [destruct Hin|].
  rewrite mergeLoop_cons in *.
  destruct (mergeFrom_contains rest c t Hm Hin) as (u & Hu & Hs & Hen).
  exists u. rewrite Forall_forall in Ho.
  split; [apply in_or_app; now right|]. split; [now apply Ho | lia].
Qed.

Lemma outside_task_stays (empId : string) (start end_ : Z)
    (exceptId : option string) (prev : list Task) (t : Task) :
  In t prev -> task_end t <= start \/ task_start t >= end_ ->
  In t (resolveOverlaps empId start end_ exceptId prev).
Proof.
  intros Ht Ho. rewrite resolveOverlaps_flat_map. apply in_flat_map.
  exists t. split; [exact Ht|]. rewrite resolveTask_cut.
  destruct (notOfEmp empId t || isExcept exceptId t); [now left|].
  unfold cutTask.
  replace ((task_end t <=? start) || (task_start t >=? end_)) with true;
    [now left|].
  symmetry. apply orb_true_iff. rewrite Z.geb_leb.
  destruct Ho; [left | right]; apply Z.leb_le; lia.
Qed.

(** Two tasks of one employee in a store of the data model that hold a
    common row are one and the same. *)
Lemma same_row_same_task (l : list Task) (a b : Task) (r : Z) :
  ForallOrdPairs apart l -> In a l -> In b l ->
  task_empId a = task_empId b ->
  task_start a <= r < task_end a -> task_start b <= r < task_end b ->
  a = b.
Proof.
  intros Hd Ha Hb He Hra Hrb.
  destruct (ForallOrdPairs_In Hd a b Ha Hb) as [E|[H|H]]; [exact E| |];
    unfold apart, disjoint in H;
    [specialize (H He) | specialize (H (eq_sym He))]; lia.
Qed.

End TakenOver.

Lemma taken_over_block
    (empId : string) (row : Z) (type : TaskType) (st : AppState) (R : Task) :
  issued st -> Forall validTask (tasks st) -> noOverlap (tasks st) ->
  isTourLike type = false ->
  In R (tasks st) -> task_empId R = empId -> task_type R = type ->
  task_label R = TYPE_LABEL type -> task_start R = row + 1 ->
  ~ covers (tasks st) empId type (TYPE_LABEL type) (row - 1) ->
  exists u,
    In u (tasks (addTaskAt empId row type st)) /\
    task_id u = idOf (seq st + 1) /\ task_empId u = empId /\
    task_start u = row /\ task_end R <= task_end u /\
    forall w r, In w (tasks (addTaskAt empId row type st)) ->
                task_empId w = empId ->
                row <= r < task_end R -> task_start w <= r < task_end w ->
                w = u.
Proof.
  intros Hi Hv Hd Hplain HR HRe HRt HRl HRs Hno.
  set (st' := addTaskAt empId row type st).
  set (N := newTaskAt empId row type st).
  set (resolved := resolveOverlaps empId row (row + 1) None (tasks st)).
  pose proof Hd as Hfop. apply noOverlap_FOP in Hfop.
  assert (HvR : validTask R) by (rewrite Forall_forall in Hv; now apply Hv).
  unfold validTask in HvR.
  assert (Htasks : tasks st' = mergeAdjacent empId (resolved ++ [N])).
  { unfold st'. rewrite addTaskAt_tasks, Hplain. reflexivity. }
  destruct (placed_good empId row type st (conj Hv Hfop)) as [HvG HdG].
  fold resolved in HvG, HdG.
  change (mkTask _ empId type (TYPE_LABEL type) row (row + 1)) with N
    in HvG, HdG.
  destruct (addTaskAt_good empId row type st (conj Hv Hfop)) as [Hv' Hd'].
  fold st' in Hv', Hd'.
  destruct (addTaskAt_cell_coverage empId row type st Hv) as [Hother Hcell].
  fold st' in Hother, Hcell.
  (* the task on the new cell *)
  destruct (proj2 (Hcell type (TYPE_LABEL type)) (conj eq_refl eq_refl))
    as (u & Hu & Eu & Etu & Elu & Hru).
  (* the task that holds the block *)
  assert (HRG : In R (resolved ++ [N])).
  { apply in_or_app. left. apply outside_task_stays; [exact HR | lia]. }
  destruct (mergeAdjacent_contains empId _ R HvG HRG HRe)
    as (uR & HuR & EuR & HsR & HeR).
  rewrite <- Htasks in HuR.
  (* they are the same task *)
  assert (Hsame : uR = u).
  { destruct (ForallOrdPairs_In Hd' uR u HuR Hu) as [E|Hap]; [exact E|].
    exfalso.
    assert (Hdis : disjoint uR u).
    { destruct Hap as [H|H]; [apply H; congruence|].
      apply apart_sym in H. apply H. congruence. }
    assert (HtR : task_type uR = type /\ task_label uR = TYPE_LABEL type).
    { assert (Hc : covers (tasks st') empId type (TYPE_LABEL type) (row + 1)).
      { apply Hother; [left; lia|]. exists R. split; [exact HR|].
        unfold coveredBy. repeat split; auto; lia. }
      destruct Hc as (v & Hv0 & Ev & Etv & Elv & Hrv).
      assert (v = uR).
      { apply (same_row_same_task (tasks st') v uR (row + 1) Hd' Hv0 HuR);
          [congruence | exact Hrv | lia]. }
      subst v. now split. }
    destruct HtR as [EtR ElR].
    apply (mergeAdjacent_no_mergeable empId (resolved ++ [N]) HvG
             (proj2 (noOverlap_FOP _) HdG) u uR); try congruence.
    unfold mergeable. unfold disjoint in Hdis.
    split; [congruence|]. split; [congruence|].
    split; [lia|].
    split; [rewrite EtR; exact Hplain | rewrite Etu; exact Hplain]. }
  subst uR.
  (* it starts on the new cell and carries the new id *)
  assert (Hstart : task_start u = row).
  { assert (task_start u < row -> False); [|lia]. intros Hlt. apply Hno.
    apply Hother; [left; lia|]. exists u. split; [exact Hu|].
    unfold coveredBy. repeat split; auto; lia. }
  assert (Hid : task_id u = idOf (seq st + 1)).
  { rewrite Htasks in Hu.
    destruct (mergeAdjacent_origin empId _ u Hu) as (t & e0 & Ht & Et).
    assert (Es : task_start t = row) by (rewrite <- Hstart, Et; reflexivity).
    assert (Ee : task_empId t = empId) by (rewrite <- Eu, Et; reflexivity).
    apply in_app_or in Ht. destruct Ht as [Ht|[<-|[]]].
    - exfalso. rewrite Forall_forall in HvG.
      assert (Hvt : validTask t) by (apply HvG, in_or_app; now left).
      unfold validTask in Hvt.
      destruct (resolveOverlaps_clear empId row (row + 1) None (tasks st)
                  t Ht Ee); [discriminate | lia | lia].
    - rewrite Et. reflexivity. }
  exists u. repeat split; auto.
  intros w r Hw Ew Hr Hrw.
  apply (same_row_same_task (tasks st') w u r Hd' Hw Hu);
    [congruence | exact Hrw | lia].
Qed.

(** X22.  Deleting a task just placed can delete an older block with it.
    In a state whose ids all came out of [uid] and whose store follows the
    data model, place a task of a kind that is not tour-like in the cell
    right before a block of the same employee with that kind and its
    canonical label, while the cell before [row] is not covered by that
    kind: the block is merged into the new task and takes the new id.
    Pressing [Delete] then leaves no row of the old block covered for that
    employee. *)
Theorem delete_takes_the_block_after
    (empId : string) (row : Z) (type : TaskType) (st : AppState) (R : Task) :
  issued st -> Forall validTask (tasks st) -> noOverlap (tasks st) ->
  isTourLike type = false ->
  In R (tasks st) -> task_empId R = empId -> task_type R = type ->
  task_label R = TYPE_LABEL type -> task_start R = row + 1 ->
  ~ covers (tasks st) empId type (TYPE_LABEL type) (row - 1) ->
  forall k lbl r,
    task_start R <= r < task_end R ->
    ~ covers (tasks (onKey "Delete" (addTaskAt empId row type st)))
             empId k lbl r.
Proof.
  intros Hi Hv Hd Hplain HR HRe HRt HRl HRs Hno k lbl r Hr.
  destruct (taken_over_block empId row type st R Hi Hv Hd Hplain HR HRe HRt
              HRl HRs Hno) as (u & Hu & Hid & _ & _ & _ & Huniq).
  destruct (addTaskAt_fresh empId row type st Hi) as (_ & Hsel & _ & _).
  rewrite (onKey_Delete_tasks _ _ Hsel (idOf_not_empty _)).
  intros (w & Hw & Ew & _ & _ & Hrw).
  apply filter_In in Hw. destruct Hw as [Hw Hne].
  apply negb_true_iff, String.eqb_neq in Hne.
  assert (w = u) by (apply (Huniq w r); auto; lia).
  subst w. contradiction.
Qed.

Lemma delete_takes_the_block_after_witness :
  let R := mkTask "t_2" "e_john" gallery "Gallery" 1 3 in
  (issued initialState /\ Forall validTask (tasks initialState) /\
   noOverlap (tasks initialState) /\ In R (tasks initialState) /\
   ~ covers (tasks initialState) "e_john" gallery "Gallery" (0 - 1)) /\
  tasks (addTaskAt "e_john" 0 gallery initialState)
  = [mkTask "t_3" "e_john" gallery "Gallery" 0 3] /\
  ~ covers (tasks (onKey "Delete" (addTaskAt "e_john" 0 gallery initialState)))
           "e_john" gallery "Gallery" 2.
Proof.
  intros R.
  assert (Hi : issued initialState).
  { intros t [<-|[<-|[]]]; [exists 1 | exists 2];
      (split; [simpl; lia | reflexivity]). }
  assert (Hv : Forall validTask (tasks initialState))
    by (apply forallb_validTask; reflexivity).
  assert (Hd : noOverlap (tasks initialState))
    by (apply noOverlapb_true; reflexivity).
  assert (HR : In R (tasks initialState)) by (right; now left).
  assert (Hno : ~ covers (tasks initialState) "e_john" gallery "Gallery" (0 - 1)).
  { intros (t & [<-|[<-|[]]] & _ & _ & _ & Hr); simpl in Hr; lia. }
  split; [repeat split; assumption|]. split; [reflexivity|].
  apply (delete_takes_the_block_after "e_john" 0 gallery initialState R
           Hi Hv Hd eq_refl HR eq_refl eq_refl eq_refl eq_refl Hno).
  simpl. lia.
Defined.
